(** * eide, src/utility.ts: the file cache, the blob hash and version comparison

    A shallow embedding of three parts of [src/utility.ts]:

    - the class [FileCache] (an index of downloaded files kept in
      [cache.json]), as state-passing code over a world made of the disk and
      the object's fields;
    - [genGithubHash], over byte lists, with the digest of node's [crypto]
      module as a parameter and FIPS 180-4 SHA-1 as its instance;
    - [compareVersion] and [isVersionString], over strings of UTF-16 code
      units, with the number type of the language as a parameter.

    What the platform provides and the source tree does not contain (the
    [File] class of lib/node-utility, [JSON], [crypto], the path separator)
    is either a section variable or a definition marked as modelled. *)

From Stdlib Require Import ZArith NArith Lia Bool Ascii String List.
From stdpp Require Import base option list gmap strings.

Local Open Scope string_scope.
Local Open Scope list_scope.
Local Open Scope Z_scope.
Local Set Warnings "-register-all".

(** ** Array helpers of the language *)

(** [Array.prototype.findIndex]: the index of the first element that
    satisfies [p], or [-1]. *)
Fixpoint findIndex_from {A : Type} (p : A → bool) (l : list A) (i : Z) : Z :=
  match l with
  | [] => -1
  | x :: l' => if p x then i else findIndex_from p l' (i + 1)
  end.

Definition findIndex {A : Type} (p : A → bool) (l : list A) : Z :=
  findIndex_from p l 0.

(** [Array.prototype.join] on strings. *)
Fixpoint join (sep : string) (l : list string) : string :=
  match l with
  | [] => ""
  | [x] => x
  | x :: l' => x +:+ sep +:+ join sep l'
  end.

(** ** Data model *)

(** The element type of [FileCacheInfo.files]. *)
Record CacheEntry : Type := { name : string; sha : string }.

(** [interface FileCacheInfo]. *)
Record FileCacheInfo : Type := { version : string; files : list CacheEntry }.

(** A [File] object of lib/node-utility, reduced to the field the cache
    uses. *)
Record File : Type := { path : string }.

(** The private fields of [class FileCache]. *)
Record FileCache : Type :=
  { folder : File; cacheFile : File; cache : FileCacheInfo }.

(** [inf.sha = s] *)
Definition set_sha (s : string) (inf : CacheEntry) : CacheEntry :=
  {| name := name inf; sha := s |}.

(** [this.cache.files = l] *)
Definition set_files (l : list CacheEntry) (c : FileCache) : FileCache :=
  {| folder := folder c;
     cacheFile := cacheFile c;
     cache := {| version := version (cache c); files := l |} |}.

(** Values that [JSON.parse] returns. A number keeps its literal: the cache
    never reads one. *)
Inductive json : Type :=
  | JNull
  | JBool (b : bool)
  | JNumber (literal : string)
  | JString (s : string)
  | JArray (elements : list json)
  | JObject (members : list (string * json)).

(** A document of the declared type, as the value [JSON.parse] gives for
    what [save] wrote. *)
Definition CacheEntry_to_json (inf : CacheEntry) : json :=
  JObject [("name", JString (name inf)); ("sha", JString (sha inf))].

Definition FileCacheInfo_to_json (d : FileCacheInfo) : json :=
  JObject [("version", JString (version d));
           ("files", JArray (map CacheEntry_to_json (files d)))].

Definition CacheEntry_of_json (j : json) : option CacheEntry :=
  match j with
  | JObject [(k1, JString n); (k2, JString s)] =>
      if (k1 =? "name")%string && (k2 =? "sha")%string
      then Some {| name := n; sha := s |} else None
  | _ => None
  end.

(** The parsed values that have the declared type of the field [cache] and
    exactly its properties, in the order in which [save] writes them. The
    assignment in the constructor is unchecked; a parsed value of any other
    shape is kept by the code as it is, and is outside the typed model. *)
Definition FileCacheInfo_of_json (j : json) : option FileCacheInfo :=
  match j with
  | JObject [(k1, JString v); (k2, JArray l)] =>
      if (k1 =? "version")%string && (k2 =? "files")%string
      then fs ← mapM CacheEntry_of_json l; Some {| version := v; files := fs |}
      else None
  | _ => None
  end.

(** ** The disk *)

Inductive node : Type :=
  | RegularFile (content : string)
  | Directory.

Abbreviation Disk := (gmap string node).

Inductive Error : Type :=
  | SyntaxError
  | TypeError
  | ENOENT (p : string)
  | EISDIR (p : string).

Inductive Completion (A : Type) : Type :=
  | Return (a : A)
  | Throw (e : Error).
Arguments Return {A} a.
Arguments Throw {A} e.

(** Modelled from the spec: [File.IsFile] of lib/node-utility, the
    [exists(path)] of the filesystem abstraction, true on regular files. *)
Definition IsFile (f : File) (d : Disk) : bool :=
  match d !! path f with
  | Some (RegularFile _) => true
  | _ => false
  end.

(** Modelled from the spec: [File.Read], the [read(path)] of the filesystem
    abstraction. *)
Definition Read (f : File) (d : Disk) : Completion string :=
  match d !! path f with
  | Some (RegularFile s) => Return s
  | Some Directory => Throw (EISDIR (path f))
  | None => Throw (ENOENT (path f))
  end.

(** Modelled from the spec: [File.Write], the [write(path, contents)] of the
    filesystem abstraction: the whole content is replaced. Writing over a
    directory fails; permissions and capacity are not part of the model. *)
Definition Write (f : File) (str : string) (d : Disk) : Completion unit * Disk :=
  match d !! path f with
  | Some Directory => (Throw (EISDIR (path f)), d)
  | _ => (Return (), <[path f := RegularFile str]> d)
  end.

(** ** Methods as state-passing code *)

(** The world a method runs in: the disk and the object [this]. *)
Record World : Type := { disk : Disk; this : FileCache }.

Definition M (A : Type) : Type := World → Completion A * World.

Definition ret {A : Type} (a : A) : M A := λ w, (Return a, w).

Definition bind {A B : Type} (m : M A) (k : A → M B) : M B :=
  λ w, match m w with
       | (Return a, w') => k a w'
       | (Throw e, w') => (Throw e, w')
       end.

Notation "x <- c1 ;; c2" := (bind c1 (λ x, c2))
  (at level 100, c1 at next level, right associativity).
Notation "c1 ;; c2" := (bind c1 (λ _, c2))
  (at level 100, right associativity).

Definition throw {A : Type} (e : Error) : M A := λ w, (Throw e, w).

Definition get_this : M FileCache := λ w, (Return (this w), w).

Definition put_files (l : list CacheEntry) : M unit :=
  λ w, (Return (), {| disk := disk w; this := set_files l (this w) |}).

Definition is_file (f : File) : M bool := λ w, (Return (IsFile f (disk w)), w).

Definition write_file (f : File) (str : string) : M unit :=
  λ w, let '(r, d) := Write f str (disk w) in (r, {| disk := d; this := this w |}).

(** [inf.name == name] where [name] is an optional string parameter. *)
Definition eq_param (s : string) (p : option string) : bool :=
  match p with
  | Some n => (s =? n)%string
  | None => false
  end.

(** [ToBoolean] on an optional string: [undefined] and [''] are false. *)
Definition truthy (p : option string) : bool :=
  match p with
  | Some n => negb (n =? "")%string
  | None => false
  end.

(** What [new FileCache(rootFolder)] does: it returns the object, throws, or
    returns an object whose field [cache] holds a parsed value outside the
    declared type of the field. *)
Inductive Construction : Type :=
  | Constructed (c : FileCache)
  | ConstructionThrows (e : Error)
  | OutsideDeclaredType (j : json).

(** A call of one of the methods that return nothing. *)
Inductive call : Type :=
  | call_add (name' sha' : string)
  | call_clear (name' : option string)
  | call_save.

Section FileCache.

(** [File.sep], the separator of the platform. *)
Variable sep : string.

(** [JSON.parse]; [None] is the [SyntaxError] it throws. *)
Variable JSON_parse : string → option json.

(** [JSON.stringify] on a value of type [FileCacheInfo]. *)
Variable JSON_stringify : FileCacheInfo → string.

(** Modelled from the spec: [File.fromArray] of lib/node-utility, which
    joins the parts with the separator. *)
Definition File_fromArray (pathArray : list string) : File :=
  {| path := join sep pathArray |}.

(** [constructor(rootFolder)]: the document is read from [cache.json] when
    that is a file, and is a fresh one otherwise. *)
Definition FileCache_new (rootFolder : File) (d : Disk) : Construction :=
  let cacheFile := File_fromArray [path rootFolder; "cache.json"] in
  if IsFile cacheFile d then
    match Read cacheFile d with
    | Throw e => ConstructionThrows e
    | Return text =>
        match JSON_parse text with
        | None => ConstructionThrows SyntaxError
        | Some j =>
            match FileCacheInfo_of_json j with
            | Some doc =>
                Constructed {| folder := rootFolder; cacheFile := cacheFile;
                               cache := doc |}
            | None => OutsideDeclaredType j
            end
        end
    end
  else
    Constructed {| folder := rootFolder; cacheFile := cacheFile;
                   cache := {| version := "1.0"; files := [] |} |}.

(** [add(name, sha)]. An index past the end would make the assignment to
    [files[idx].sha] a [TypeError]. *)
Definition add (name' sha' : string) : M unit :=
  c <- get_this ;;
  let idx := findIndex (λ inf, (name inf =? name')%string) (files (cache c)) in
  if negb (idx =? -1) then
    match files (cache c) !! Z.to_nat idx with
    | None => throw TypeError
    | Some inf => put_files (<[Z.to_nat idx := set_sha sha' inf]> (files (cache c)))
    end
  else
    put_files (files (cache c) ++ [{| name := name'; sha := sha' |}]).

(** [get(name, sha)]; [None] is [undefined]. *)
Definition get (name' sha' : string) : M (option File) :=
  c <- get_this ;;
  let idx := findIndex (λ inf, (name inf =? name')%string && (sha inf =? sha')%string)
               (files (cache c)) in
  if idx =? -1 then ret None
  else
    match files (cache c) !! Z.to_nat idx with
    | None => throw TypeError
    | Some inf =>
        let f := File_fromArray [path (folder c); name inf] in
        b <- is_file f ;;
        if negb b then ret None else ret (Some f)
    end.

(** [clear(name?)]; [None] is the omitted argument. [splice(idx, 1)] takes
    out the element at [idx]. *)
Definition clear (name' : option string) : M unit :=
  c <- get_this ;;
  if truthy name' then
    let idx := findIndex (λ inf, eq_param (name inf) name') (files (cache c)) in
    if negb (idx =? -1) then
      put_files (delete (Z.to_nat idx) (files (cache c)))
    else ret ()
  else put_files [].

(** [save()] *)
Definition save : M unit :=
  c <- get_this ;;
  write_file (cacheFile c) (JSON_stringify (cache c)).

Definition invoke (c : call) : M unit :=
  match c with
  | call_add n s => add n s
  | call_clear n => clear n
  | call_save => save
  end.

(** The calls of a caller that goes on after a failed [save]: an
    exception leaves the object and the disk as the call left them. *)
Definition exec (cs : list call) (w : World) : World :=
  foldl (λ w c, snd (invoke c w)) w cs.

Definition is_save (c : call) : bool :=
  match c with call_save => true | _ => false end.

End FileCache.

(** A lowercase hexadecimal digit. *)
Definition hex_digit (n : N) : ascii :=
  if (n <? 10)%N then ascii_of_N (48 + n) else ascii_of_N (87 + n).

(** ** An instance of the platform's JSON

    The grammar of ECMA-404 over byte strings: the text of a file is taken
    as its UTF-8 bytes, bytes above 127 pass through string values as they
    are, and an escape [\uXXXX] is replaced by the UTF-8 bytes of that one
    code unit. *)
Module JSON.

Definition dquote : ascii := "034"%char.
Definition backslash : ascii := "092"%char.

Definition is_ws (c : ascii) : bool :=
  let n := N_of_ascii c in
  ((n =? 32) || (n =? 9) || (n =? 10) || (n =? 13))%N.

Definition is_digit (c : ascii) : bool :=
  let n := N_of_ascii c in ((48 <=? n) && (n <=? 57))%N.

Fixpoint skip_ws (s : string) : string :=
  match s with
  | String c r => if is_ws c then skip_ws r else s
  | EmptyString => s
  end.

(** The longest prefix of digits, and the rest. *)
Fixpoint digits (s : string) : string * string :=
  match s with
  | String c r =>
      if is_digit c then let '(ds, r') := digits r in (String c ds, r')
      else (EmptyString, s)
  | EmptyString => (EmptyString, s)
  end.

Fixpoint strip_prefix (p s : string) : option string :=
  match p, s with
  | EmptyString, _ => Some s
  | String a p', String b s' => if (a =? b)%char then strip_prefix p' s' else None
  | String _ _, EmptyString => None
  end.

Definition hex_value (c : ascii) : option N :=
  let n := N_of_ascii c in
  if ((48 <=? n) && (n <=? 57))%N then Some (n - 48)%N
  else if ((97 <=? n) && (n <=? 102))%N then Some (n - 87)%N
  else if ((65 <=? n) && (n <=? 70))%N then Some (n - 55)%N
  else None.

Definition byte (n : N) : ascii := ascii_of_N (n mod 256).

(** The UTF-8 bytes of one code unit. *)
Definition utf8 (u : N) : string :=
  if (u <? 128)%N then String (byte u) EmptyString
  else if (u <? 2048)%N then
    String (byte (192 + u / 64)) (String (byte (128 + u mod 64)) EmptyString)
  else
    String (byte (224 + u / 4096))
      (String (byte (128 + (u / 64) mod 64))
         (String (byte (128 + u mod 64)) EmptyString)).

(** A string value, after its opening quote. *)
Fixpoint parse_chars (s : string) : option (string * string) :=
  match s with
  | EmptyString => None
  | String c r =>
      if (c =? dquote)%char then Some (EmptyString, r)
      else if (c =? backslash)%char then
        match r with
        | EmptyString => None
        | String e r' =>
            let simple (x : ascii) :=
              '(v, rest) ← parse_chars r'; Some (String x v, rest) in
            if (e =? dquote)%char then simple dquote
            else if (e =? backslash)%char then simple backslash
            else if (e =? "/")%char then simple "/"%char
            else if (e =? "b")%char then simple "008"%char
            else if (e =? "f")%char then simple "012"%char
            else if (e =? "n")%char then simple "010"%char
            else if (e =? "r")%char then simple "013"%char
            else if (e =? "t")%char then simple "009"%char
            else if (e =? "u")%char then
              match r' with
              | String h1 (String h2 (String h3 (String h4 r''))) =>
                  a ← hex_value h1; b ← hex_value h2;
                  c ← hex_value h3; d ← hex_value h4;
                  '(v, rest) ← parse_chars r'';
                  Some (utf8 (((a * 16 + b) * 16 + c) * 16 + d)%N +:+ v, rest)
              | _ => None
              end
            else None
        end
      else if (N_of_ascii c <? 32)%N then None
      else '(v, rest) ← parse_chars r; Some (String c v, rest)
  end.

(** The literal of a number: sign, integer part, fraction, exponent. *)
Definition parse_number (s : string) : option (string * string) :=
  let '(sign, s1) :=
    match s with
    | String c r => if (c =? "-")%char then ("-", r) else (EmptyString, s)
    | EmptyString => (EmptyString, s)
    end in
  let '(int, s2) := digits s1 in
  match int with
  | EmptyString => None
  | String c (String _ _) =>
      if (c =? "0")%char then None else Some (sign +:+ int, s2)
  | _ => Some (sign +:+ int, s2)
  end ≫= λ '(lit, s2),
  (match s2 with
   | String c r =>
       if (c =? ".")%char then
         let '(frac, s3) := digits r in
         match frac with
         | EmptyString => None
         | _ => Some (lit +:+ "." +:+ frac, s3)
         end
       else Some (lit, s2)
   | EmptyString => Some (lit, s2)
   end) ≫= λ '(lit, s3),
  match s3 with
  | String c r =>
      if ((c =? "e") || (c =? "E"))%char then
        let '(esign, r1) :=
          match r with
          | String x r' =>
              if ((x =? "+") || (x =? "-"))%char
              then (String x EmptyString, r') else (EmptyString, r)
          | EmptyString => (EmptyString, r)
          end in
        let '(ex, s4) := digits r1 in
        match ex with
        | EmptyString => None
        | _ => Some (lit +:+ String c esign +:+ ex, s4)
        end
      else Some (lit, s3)
  | EmptyString => Some (lit, s3)
  end.

Fixpoint parse_value (fuel : nat) (s : string) : option (json * string) :=
  match fuel with
  | O => None
  | S fuel =>
      match skip_ws s with
      | EmptyString => None
      | String c r =>
          if (c =? "{")%char then
            match skip_ws r with
            | String c' r' =>
                if (c' =? "}")%char then Some (JObject [], r')
                else '(ms, rest) ← parse_members fuel r; Some (JObject ms, rest)
            | EmptyString => None
            end
          else if (c =? "[")%char then
            match skip_ws r with
            | String c' r' =>
                if (c' =? "]")%char then Some (JArray [], r')
                else '(es, rest) ← parse_elements fuel r; Some (JArray es, rest)
            | EmptyString => None
            end
          else if (c =? dquote)%char then
            '(v, rest) ← parse_chars r; Some (JString v, rest)
          else if (c =? "t")%char then
            rest ← strip_prefix "rue" r; Some (JBool true, rest)
          else if (c =? "f")%char then
            rest ← strip_prefix "alse" r; Some (JBool false, rest)
          else if (c =? "n")%char then
            rest ← strip_prefix "ull" r; Some (JNull, rest)
          else
            '(lit, rest) ← parse_number (String c r); Some (JNumber lit, rest)
      end
  end
with parse_elements (fuel : nat) (s : string) : option (list json * string) :=
  match fuel with
  | O => None
  | S fuel =>
      '(v, rest) ← parse_value fuel s;
      match skip_ws rest with
      | String c r =>
          if (c =? ",")%char then
            '(vs, rest') ← parse_elements fuel r; Some (v :: vs, rest')
          else if (c =? "]")%char then Some ([v], r)
          else None
      | EmptyString => None
      end
  end
with parse_members (fuel : nat) (s : string)
    : option (list (string * json) * string) :=
  match fuel with
  | O => None
  | S fuel =>
      match skip_ws s with
      | String q r =>
          if (q =? dquote)%char then
            '(k, rest) ← parse_chars r;
            match skip_ws rest with
            | String colon r1 =>
                if (colon =? ":")%char then
                  '(v, rest1) ← parse_value fuel r1;
                  match skip_ws rest1 with
                  | String c r2 =>
                      if (c =? ",")%char then
                        '(ms, rest2) ← parse_members fuel r2;
                        Some ((k, v) :: ms, rest2)
                      else if (c =? "}")%char then Some ([(k, v)], r2)
                      else None
                  | EmptyString => None
                  end
                else None
            | EmptyString => None
            end
          else None
      | EmptyString => None
      end
  end.

(** [JSON.parse]: one value, with white space around it and nothing
    else. *)
Definition parse (text : string) : option json :=
  '(v, rest) ← parse_value (2 * String.length text + 2) text;
  match skip_ws rest with
  | EmptyString => Some v
  | String _ _ => None
  end.

(** [QuoteJSONString], character by character. *)
Definition escape_char (c : ascii) : string :=
  let n := N_of_ascii c in
  if (n =? 34)%N then String backslash (String dquote EmptyString)
  else if (n =? 92)%N then String backslash (String backslash EmptyString)
  else if (n =? 8)%N then String backslash "b"
  else if (n =? 12)%N then String backslash "f"
  else if (n =? 10)%N then String backslash "n"
  else if (n =? 13)%N then String backslash "r"
  else if (n =? 9)%N then String backslash "t"
  else if (n <? 32)%N then
    String backslash
      ("u00" +:+ String (hex_digit (n / 16)) (String (hex_digit (n mod 16)) EmptyString))
  else String c EmptyString.

Fixpoint escape (s : string) : string :=
  match s with
  | EmptyString => EmptyString
  | String c r => escape_char c +:+ escape r
  end.

Definition quote (s : string) : string :=
  String dquote (escape s +:+ String dquote EmptyString).

Definition stringify_entry (inf : CacheEntry) : string :=
  "{" +:+ quote "name" +:+ ":" +:+ quote (name inf) +:+ ","
      +:+ quote "sha" +:+ ":" +:+ quote (sha inf) +:+ "}".

(** [JSON.stringify] on a document: its two properties in the order of
    their creation, no white space. *)
Definition stringify (doc : FileCacheInfo) : string :=
  "{" +:+ quote "version" +:+ ":" +:+ quote (version doc) +:+ ","
      +:+ quote "files" +:+ ":[" +:+ join "," (map stringify_entry (files doc))
      +:+ "]}".

End JSON.

(** ** genGithubHash *)

(** A [Buffer] is a list of bytes. *)
Abbreviation Buffer := (list Byte.byte).

(** [Number.prototype.toString] on the length of a buffer: the decimal
    digits of a natural number (lengths stay below the exponent notation
    of large numbers). *)
Fixpoint decimal_digits (fuel : nat) (n : N) (acc : string) : string :=
  match fuel with
  | O => acc
  | S fuel =>
      let acc := String (ascii_of_N (48 + n mod 10)) acc in
      if (n <? 10)%N then acc else decimal_digits fuel (n / 10) acc
  end.

Definition Number_toString (n : N) : string :=
  decimal_digits (S (N.to_nat (N.log2 n))) n "".

(** [Buffer.from(string)] on the ASCII strings of this file. *)
Definition Buffer_from (s : string) : Buffer := list_byte_of_string s.

(** [Buffer.concat(list, totalLength)]: the buffers in order, cut or
    filled with zero bytes to the total length. *)
Definition Buffer_concat (l : list Buffer) (totalLength : nat) : Buffer :=
  take totalLength (concat l ++ repeat Byte.x00 totalLength).

(** [digest('hex')]: two lowercase digits per byte. *)
Fixpoint to_hex (l : list Byte.byte) : string :=
  match l with
  | [] => ""
  | b :: l' =>
      let n := Byte.to_N b in
      String (hex_digit (n / 16)) (String (hex_digit (n mod 16)) (to_hex l'))
  end.

(** A [Hash] object of the module crypto: its algorithm and the bytes
    written so far. *)
Record Hash : Type := { algorithm : string; written : Buffer }.

Definition createHash (alg : string) : Hash := {| algorithm := alg; written := [] |}.

Definition update (h : Hash) (buf : Buffer) : Hash :=
  {| algorithm := algorithm h; written := written h ++ buf |}.

Section GenGithubHash.

(** The digest functions of the module crypto, by name of algorithm. *)
Variable digest_of : string → Buffer → Buffer.

Definition digest_hex (h : Hash) : string :=
  to_hex (digest_of (algorithm h) (written h)).

(** Modelled from the spec: [File.getSize] and [fs.readFileSync], the
    [read(path)] of the filesystem abstraction, in bytes. *)
Definition readFileSync (f : File) (d : Disk) : Completion Buffer :=
  match Read f d with
  | Return text => Return (list_byte_of_string text)
  | Throw e => Throw e
  end.

Definition genGithubHash (f : File + Buffer) (d : Disk) : Completion string :=
  match f with
  | inl f =>
      match readFileSync f d with
      | Throw e => Throw e
      | Return content =>
          let size := length content in
          let header := Buffer_from ("blob " +:+ Number_toString (N.of_nat size)
                                       +:+ String zero "") in
          let buf := Buffer_concat [header; content] (length header + size) in
          let hash := createHash "sha1" in
          let hash := update hash buf in
          Return (digest_hex hash)
      end
  | inr f =>
      let header := Buffer_from ("blob " +:+ Number_toString (N.of_nat (length f))
                                   +:+ String zero "") in
      let buf := Buffer_concat [header; f] (length header + length f) in
      let hash := createHash "sha1" in
      let hash := update hash buf in
      Return (digest_hex hash)
  end.

End GenGithubHash.

(** *** SHA-1 (FIPS 180-4), the instance of the digest *)
Module SHA1.

Definition w32 (x : Z) : Z := x mod 2 ^ 32.

Definition rotl (n x : Z) : Z :=
  w32 (Z.lor (Z.shiftl x n) (Z.shiftr x (32 - n))).

(** The eight bytes of the bit length, most significant first. *)
Definition length_bytes (bits : Z) : list Z :=
  map (λ i, Z.shiftr bits (8 * (7 - Z.of_nat i)) mod 256) (seq 0 8).

Definition pad (msg : list Z) : list Z :=
  let len := Z.of_nat (length msg) in
  msg ++ [128] ++ repeat 0 (Z.to_nat ((55 - len) mod 64)) ++ length_bytes (8 * len).

(** Big-endian words of a byte list whose length is a multiple of four. *)
Fixpoint words (l : list Z) : list Z :=
  match l with
  | a :: b :: c :: d :: l' => (((a * 256 + b) * 256 + c) * 256 + d) :: words l'
  | _ => []
  end.

(** The message schedule, latest word first. *)
Fixpoint schedule (n : nat) (rev_w : list Z) : list Z :=
  match n with
  | O => rev_w
  | S n =>
      let at_ i := nth i rev_w 0 in
      schedule n
        (rotl 1 (Z.lxor (Z.lxor (at_ 2%nat) (at_ 7%nat))
                        (Z.lxor (at_ 13%nat) (at_ 15%nat))) :: rev_w)
  end.

Definition f (t : nat) (b c d : Z) : Z :=
  if (t <? 20)%nat then Z.lor (Z.land b c) (Z.land (Z.lxor b (2 ^ 32 - 1)) d)
  else if (t <? 40)%nat then Z.lxor (Z.lxor b c) d
  else if (t <? 60)%nat then
    Z.lor (Z.lor (Z.land b c) (Z.land b d)) (Z.land c d)
  else Z.lxor (Z.lxor b c) d.

Definition K (t : nat) : Z :=
  if (t <? 20)%nat then 0x5a827999
  else if (t <? 40)%nat then 0x6ed9eba1
  else if (t <? 60)%nat then 0x8f1bbcdc
  else 0xca62c1d6.

Definition state : Type := Z * Z * Z * Z * Z.

Fixpoint rounds (t : nat) (w : list Z) (s : state) : state :=
  match w with
  | [] => s
  | wt :: w' =>
      let '(a, b, c, d, e) := s in
      let temp := w32 (rotl 5 a + f t b c d + e + K t + wt) in
      rounds (S t) w' (temp, a, rotl 30 b, c, d)
  end.

Definition block (s : state) (m : list Z) : state :=
  let w := rev (schedule 64 (rev (words m))) in
  let '(h0, h1, h2, h3, h4) := s in
  let '(a, b, c, d, e) := rounds 0 w s in
  (w32 (h0 + a), w32 (h1 + b), w32 (h2 + c), w32 (h3 + d), w32 (h4 + e)).

Fixpoint blocks (n : nat) (s : state) (m : list Z) : state :=
  match n with
  | O => s
  | S n => blocks n (block s (take 64 m)) (drop 64 m)
  end.

Definition word_bytes (x : Z) : list Z :=
  [Z.shiftr x 24 mod 256; Z.shiftr x 16 mod 256; Z.shiftr x 8 mod 256; x mod 256].

Definition byte_of_Z (x : Z) : Byte.byte :=
  match Byte.of_N (Z.to_N (x mod 256)) with
  | Some b => b
  | None => Byte.x00
  end.

Definition digest (msg : Buffer) : Buffer :=
  let m := pad (map (λ b, Z.of_N (Byte.to_N b)) msg) in
  let '(h0, h1, h2, h3, h4) :=
    blocks (length m / 64)
      (0x67452301, 0xefcdab89, 0x98badcfe, 0x10325476, 0xc3d2e1f0) m in
  map byte_of_Z (word_bytes h0 ++ word_bytes h1 ++ word_bytes h2 ++
                 word_bytes h3 ++ word_bytes h4).

(** The table of algorithms, with SHA-1 filled in. *)
Definition digest_of (alg : string) (msg : Buffer) : Buffer :=
  if (alg =? "sha1")%string then digest msg else [].

End SHA1.

(** ** Version strings *)

(** A string of the language: its UTF-16 code units. *)
Abbreviation jsstring := (list N).

(** The code units of an ASCII literal. *)
Definition js (s : string) : jsstring := map N_of_ascii (list_ascii_of_string s).

(** White space and line terminators: the class [\s] of regular
    expressions, which is also what [trim] and [parseInt] strip. *)
Definition isWhiteSpace (c : N) : bool :=
  ((9 <=? c) && (c <=? 13) || (c =? 32) || (c =? 160) || (c =? 0x1680)
   || (0x2000 <=? c) && (c <=? 0x200a) || (c =? 0x2028) || (c =? 0x2029)
   || (c =? 0x202f) || (c =? 0x205f) || (c =? 0x3000) || (c =? 0xfeff))%N.

(** The class [\d]. *)
Definition isDigit (c : N) : bool := ((48 <=? c) && (c <=? 57))%N.

Definition isDot (c : N) : bool := (c =? 46)%N.

(** Regular expressions over classes of code units. *)
Inductive regex : Type :=
  | Void
  | Eps
  | Class (p : N → bool)
  | Seq (r1 r2 : regex)
  | Alt (r1 r2 : regex)
  | Star (r : regex).

(** [r+] *)
Definition Plus (r : regex) : regex := Seq r (Star r).

Fixpoint nullable (r : regex) : bool :=
  match r with
  | Void => false
  | Eps => true
  | Class _ => false
  | Seq r1 r2 => nullable r1 && nullable r2
  | Alt r1 r2 => nullable r1 || nullable r2
  | Star _ => true
  end.

(** What is left of [r] after the code unit [c]. *)
Fixpoint derive (c : N) (r : regex) : regex :=
  match r with
  | Void => Void
  | Eps => Void
  | Class p => if p c then Eps else Void
  | Seq r1 r2 =>
      if nullable r1 then Alt (Seq (derive c r1) r2) (derive c r2)
      else Seq (derive c r1) r2
  | Alt r1 r2 => Alt (derive c r1) (derive c r2)
  | Star r' => Seq (derive c r') (Star r')
  end.

(** [/^r$/.test(s)]: the whole string is matched. *)
Fixpoint test (r : regex) (s : jsstring) : bool :=
  match s with
  | [] => nullable r
  | c :: s' => test (derive c r) s'
  end.

(** [/^\s*\d+(?:\.\d+)+\s*$/] *)
Definition version_regex : regex :=
  Seq (Star (Class isWhiteSpace))
    (Seq (Plus (Class isDigit))
       (Seq (Plus (Seq (Class isDot) (Plus (Class isDigit))))
          (Star (Class isWhiteSpace)))).

Definition isVersionString (str : jsstring) : bool := test version_regex str.

(** [String.prototype.split] with a separator of one code unit. *)
Fixpoint split (sep : N) (s : jsstring) : list jsstring :=
  match s with
  | [] => [[]]
  | c :: s' =>
      if (c =? sep)%N then [] :: split sep s'
      else match split sep s' with
           | piece :: pieces => (c :: piece) :: pieces
           | [] => [[c]]
           end
  end.

Fixpoint trimStart (s : jsstring) : jsstring :=
  match s with
  | c :: s' => if isWhiteSpace c then trimStart s' else s
  | [] => []
  end.

(** [String.prototype.trim] *)
Definition trim (s : jsstring) : jsstring := rev (trimStart (rev (trimStart s))).

Definition isEmpty (s : jsstring) : bool :=
  match s with [] => true | _ :: _ => false end.

(** The value of a code unit as a digit: [0-9], [a-z], [A-Z]. *)
Definition digitValue (c : N) : option N :=
  if ((48 <=? c) && (c <=? 57))%N then Some (c - 48)%N
  else if ((97 <=? c) && (c <=? 122))%N then Some (c - 87)%N
  else if ((65 <=? c) && (c <=? 90))%N then Some (c - 55)%N
  else None.

(** The longest prefix of digits of the radix, as their values. *)
Fixpoint radixDigits (R : N) (s : jsstring) : list N :=
  match s with
  | c :: s' =>
      match digitValue c with
      | Some v => if (v <? R)%N then v :: radixDigits R s' else []
      | None => []
      end
  | [] => []
  end.

Definition mathInt (R : N) (ds : list N) : N :=
  fold_left (λ acc v, acc * R + v)%N ds 0%N.

(** The result of [compareVersion]: a number, or the [Error] it throws for
    the version string it could not read. *)
Inductive Outcome : Type :=
  | Returns (r : Z)
  | Throws (versionString : jsstring).

Section CompareVersion.

(** The numbers of the language. The embedding fixes neither how an
    integer is rounded to a double nor how doubles compare: a sign and a
    magnitude become a number, and two numbers are compared. *)
Variable Number : Type.
Variable toNumber : bool → N → Number.
Variable gt lt : Number → Number → bool.

(** [parseInt(string)] with the radix left out; [None] is [NaN]. *)
Definition parseInt (inputString : jsstring) : option Number :=
  let str := trimStart inputString in
  let '(negative, str) :=
    match str with
    | c :: str' =>
        if (c =? 45)%N then (true, str')
        else if (c =? 43)%N then (false, str')
        else (false, str)
    | [] => (false, str)
    end in
  let '(R, str) :=
    match str with
    | c0 :: c1 :: str' =>
        if ((c0 =? 48) && ((c1 =? 120) || (c1 =? 88)))%N then (16%N, str')
        else (10%N, str)
    | _ => (10%N, str)
    end in
  match radixDigits R str with
  | [] => None
  | ds => Some (toNumber negative (mathInt R ds))
  end.

(** [parseInt(li[index])]: past the end the element is [undefined], which
    reads as [NaN]. *)
Definition parseInt_at (li : list jsstring) (index : nat) : option Number :=
  match li !! index with
  | Some s => parseInt s
  | None => None
  end.

(** The loop [for (index = ...; index < minLen; index++)], with the number
    of iterations left, and the statements that follow it. *)
Fixpoint compare_loop (v1 v2 : jsstring) (v1_li v2_li : list jsstring)
    (todo index : nat) (after : Outcome) : Outcome :=
  match todo with
  | O => after
  | S todo =>
      match parseInt_at v1_li index with
      | None => Throws v1
      | Some v_1 =>
          match parseInt_at v2_li index with
          | None => Throws v2
          | Some v_2 =>
              if gt v_1 v_2 then Returns 1
              else if lt v_1 v_2 then Returns (-1)
              else compare_loop v1 v2 v1_li v2_li todo (S index) after
          end
      end
  end.

Definition compareVersion (v1 v2 : jsstring) : Outcome :=
  let v1_li := List.filter (λ s, negb (isEmpty (trim s))) (split 46 v1) in
  let v2_li := List.filter (λ s, negb (isEmpty (trim s))) (split 46 v2) in
  let minLen := Nat.min (length v1_li) (length v2_li) in
  compare_loop v1 v2 v1_li v2_li minLen 0
    (if (length v2_li <? length v1_li)%nat then Returns 1
     else if (length v1_li <? length v2_li)%nat then Returns (-1)
     else Returns 0).

End CompareVersion.

(** The numbers as exact integers, an instance. *)
Definition exactNumber (negative : bool) (m : N) : Z :=
  if negative then - Z.of_N m else Z.of_N m.

(** ** Vocabulary of the statements *)

(** The two outcomes of [findIndex]: no element satisfies the predicate, or
    the list splits at the first one that does. *)
Inductive findIndex_view {A : Type} (p : A → bool) (l : list A) : Z → Prop :=
  | findIndex_none :
      Forall (λ x, p x = false) l → findIndex_view p l (-1)
  | findIndex_first (l1 : list A) (x : A) (l2 : list A) :
      l = l1 ++ x :: l2 → Forall (λ y, p y = false) l1 → p x = true →
      findIndex_view p l (Z.of_nat (length l1)).

(** The world [w] with the entries of the document replaced by [l]. *)
Definition with_files (l : list CacheEntry) (w : World) : World :=
  {| disk := disk w; this := set_files l (this w) |}.

(** The entry [inf] has the name [n]. *)
Definition named (n : string) (inf : CacheEntry) : Prop := name inf = n.

#[local] Instance named_dec n inf : Decision (named n inf).
Proof. unfold named. apply _. Defined.

(** The entry [inf] has the name [n] and the hash [s]. *)
Definition matches (n s : string) (inf : CacheEntry) : Prop :=
  name inf = n ∧ sha inf = s.

(** The names of the entries, in order. *)
Definition names (c : FileCache) : list string := map name (files (cache c)).

(** The document a construction left in the field [cache], as parsed. *)
Definition loaded (r : Construction) : option json :=
  match r with
  | Constructed c => Some (FileCacheInfo_to_json (cache c))
  | OutsideDeclaredType j => Some j
  | ConstructionThrows _ => None
  end.

(** Reading a string as a decimal numeral; [None] when some character is
    not a digit. *)
Fixpoint read_decimal (acc : N) (s : string) : option N :=
  match s with
  | EmptyString => Some acc
  | String c r =>
      let k := N_of_ascii c in
      if ((48 <=? k) && (k <=? 57))%N then read_decimal (acc * 10 + (k - 48)) r
      else None
  end.

(** The characters [0-9a-f]. *)
Definition is_lower_hex (c : ascii) : bool :=
  let k := N_of_ascii c in
  ((48 <=? k) && (k <=? 57) || (97 <=? k) && (k <=? 102))%N.

(** What git hashes for a blob: the header [blob], a space, the decimal
    length, a zero byte, then the content. *)
Definition git_blob (content : Buffer) : Buffer :=
  Buffer_from "blob " ++ Buffer_from (Number_toString (N.of_nat (length content)))
    ++ [Byte.x00] ++ content.

(** The strings a regular expression denotes. *)
Inductive lang : regex → jsstring → Prop :=
  | lang_eps : lang Eps []
  | lang_class (p : N → bool) (c : N) : p c = true → lang (Class p) [c]
  | lang_seq (r1 r2 : regex) (s1 s2 : jsstring) :
      lang r1 s1 → lang r2 s2 → lang (Seq r1 r2) (s1 ++ s2)
  | lang_alt_l (r1 r2 : regex) (s : jsstring) : lang r1 s → lang (Alt r1 r2) s
  | lang_alt_r (r1 r2 : regex) (s : jsstring) : lang r2 s → lang (Alt r1 r2) s
  | lang_star_nil (r : regex) : lang (Star r) []
  | lang_star_cons (r : regex) (s1 s2 : jsstring) :
      lang r s1 → lang (Star r) s2 → lang (Star r) (s1 ++ s2).

(** One component of a version string: digits, with white space allowed
    on both sides. *)
Definition numeric_piece (piece : jsstring) : Prop :=
  ∃ w c d w',
    piece = w ++ c :: d ++ w' ∧
    Forall (λ x, isWhiteSpace x = true) w ∧ isDigit c = true ∧
    Forall (λ x, isDigit x = true) d ∧ Forall (λ x, isWhiteSpace x = true) w'.

(** The three results of a comparison. *)
Definition is_sign (out : Outcome) : Prop :=
  ∃ r, out = Returns r ∧ (r = -1 ∨ r = 0 ∨ r = 1).

(** ** wrapCommand *)

(** [cmd.includes(' ')] *)
Fixpoint includes_space (cmd : string) : bool :=
  match cmd with
  | EmptyString => false
  | String c r => (c =? " ")%char || includes_space r
  end.

(** [cmd.startsWith] on the double quote. *)
Definition startsWith_quote (cmd : string) : bool :=
  match cmd with
  | EmptyString => false
  | String c _ => (c =? JSON.dquote)%char
  end.

(** The function given to [map]: an argument with a space that does not
    start with a quote is put between quotes. *)
Definition wrap_argument (cmd : string) : string :=
  if includes_space cmd && negb (startsWith_quote cmd)
  then String JSON.dquote (cmd +:+ String JSON.dquote EmptyString)
  else cmd.

Definition wrapCommand (cmds : list string) : string :=
  join " " (map wrap_argument cmds).

(** ** Host and path of a URL, host redirection, formatPath *)

(** [s.startsWith(p)] on code units. *)
Fixpoint is_prefix (p s : jsstring) : bool :=
  match p, s with
  | [], _ => true
  | a :: p', b :: s' => (a =? b)%N && is_prefix p' s'
  | _ :: _, [] => false
  end.

(** [s.replace(pat, rep)] with a string pattern: the first occurrence is
    replaced. The replacements of this file hold no [$], so they are taken
    literally. *)
Fixpoint replace_first (pat rep s : jsstring) : jsstring :=
  if is_prefix pat s then rep ++ drop (length pat) s
  else match s with
       | [] => []
       | c :: s' => c :: replace_first pat rep s'
       end.

(** [Array.prototype.join] on strings of code units. *)
Fixpoint join_units (sep : jsstring) (l : list jsstring) : jsstring :=
  match l with
  | [] => []
  | [x] => x
  | x :: l' => x ++ sep ++ join_units sep l'
  end.

(** The statements "parse path" of [downloadFile], [requestTxt] and
    [downloadFileWithProgress]: the host name and the path of the request.
    [split] gives at least one part, so [urlParts[0]] is a string. *)
Definition request_target (url : jsstring) : jsstring * jsstring :=
  let urlParts := split 47 (replace_first (js "https://") [] url) in
  let hostName := match urlParts with h :: _ => h | [] => [] end in
  let path := 47%N :: join_units [47%N] (drop 1 urlParts) in
  (hostName, path).

(** The constant [hostMap], in the order of its keys. *)
Definition hostMap : list (jsstring * list jsstring) :=
  [(js "api.github.com", [js "api-github.em-ide.com"]);
   (js "raw.githubusercontent.com",
    [js "raw-github.em-ide.com"; js "raw-github.github0null.io"])].

(** The loop of [redirectHost] over the hosts that are left. [random k] is
    the [k]-th value drawn from [Math.random]; it stands for the index
    [Math.floor(Math.random() * hostList.length)] by its remainder, so that
    every index below the length, and no other, can come out. *)
Fixpoint redirect_loop (hosts : list (jsstring * list jsstring))
    (random : nat → nat) (k : nat) (url : jsstring) : jsstring :=
  match hosts with
  | [] => url
  | (host, hostList) :: hosts' =>
      if (1 <? length hostList)%nat then
        let idx := (random k mod length hostList)%nat in
        redirect_loop hosts' random (S k)
          (replace_first host (nth idx hostList []) url)
      else
        redirect_loop hosts' random k
          (replace_first host (nth 0 hostList []) url)
  end.

Definition redirectHost (random : nat → nat) (url : jsstring) : jsstring :=
  redirect_loop hostMap random 0 url.

(** A slash or a backslash. *)
Definition isSeparator (c : N) : bool := ((c =? 92) || (c =? 47))%N.

(** [s.replace(/(?:\\|\/)+$/, '')]: the match starts at the first position
    from which the expression reaches the end of the string, and is
    removed. *)
Fixpoint replace_trailing_separators (s : jsstring) : jsstring :=
  if test (Plus (Class isSeparator)) s then []
  else match s with
       | [] => []
       | c :: s' => c :: replace_trailing_separators s'
       end.

Section FormatPath.

(** [File.ToLocalPath] of lib/node-utility, which is not part of the source
    tree. *)
Variable ToLocalPath : jsstring → jsstring.

Definition formatPath (path : jsstring) : jsstring :=
  ToLocalPath (replace_trailing_separators (trim path)).

End FormatPath.

(** ** Vocabulary of the further properties *)

(** The components [compareVersion] compares: the pieces between dots that
    are not blank, [v.split('.').filter((s) => s.trim() != '')]. *)
Definition components (v : jsstring) : list jsstring :=
  List.filter (λ s, negb (isEmpty (trim s))) (split 46 v).

(** A dot or a white space character. *)
Definition blankOrDot (c : N) : bool := (c =? 46)%N || isWhiteSpace c.

(** One or more digits. *)
Definition digits1 (d : jsstring) : Prop :=
  d ≠ [] ∧ Forall (λ x, isDigit x = true) d.

(** White space, digits, one or more groups of a dot and digits, white
    space. *)
Definition version_shape (v : jsstring) : Prop :=
  ∃ w d0 ds w',
    v = w ++ d0 ++ concat (map (λ d, 46%N :: d) ds) ++ w' ∧
    Forall (λ x, isWhiteSpace x = true) w ∧ digits1 d0 ∧
    ds ≠ [] ∧ Forall digits1 ds ∧ Forall (λ x, isWhiteSpace x = true) w'.

(** Comparing two lists of numbers from the left: the first place where
    one is greater or less decides; when one list runs out first, the longer
    list is the greater. *)
Fixpoint lexicographic {A : Type} (gt lt : A → A → bool) (l1 l2 : list A) : Z :=
  match l1, l2 with
  | [], [] => 0
  | _ :: _, [] => 1
  | [], _ :: _ => -1
  | a :: l1', b :: l2' =>
      if gt a b then 1 else if lt a b then -1 else lexicographic gt lt l1' l2'
  end.

(** The string [pat] occurs in [s]. *)
Definition occurs (pat s : jsstring) : Prop := ∃ a b, s = a ++ pat ++ b.

(** The byte two hexadecimal digits stand for. *)
Definition byte_of_hex (hi lo : ascii) : option Byte.byte :=
  h ← JSON.hex_value hi; l ← JSON.hex_value lo; Byte.of_N (h * 16 + l).

(** ** Concrete worlds for the runs below *)

Module Runs.

Definition root : File := {| path := "/eide" |}.

Definition cache_json : File := File_fromArray "/" [path root; "cache.json"].

(** The object over [root] with the entries [l]. *)
Definition object (l : list CacheEntry) : FileCache :=
  {| folder := root; cacheFile := cache_json;
     cache := {| version := "1.0"; files := l |} |}.

Definition entry (n s : string) : CacheEntry := {| name := n; sha := s |}.

(** A well-formed [cache.json] in which two entries share a name. *)
Definition twice_a : FileCacheInfo :=
  {| version := "1.0"; files := [entry "a" "1"; entry "a" "2"] |}.

Definition disk_twice_a : Disk :=
  {[ path cache_json := RegularFile (JSON.stringify twice_a) ]}.

End Runs.

Import Runs.

(** * Properties *)

(** ** findIndex *)

Lemma findIndex_from_none {A : Type} (p : A → bool) (l : list A) (i : Z) :
  0 ≤ i → findIndex_from p l i = -1 ↔ Forall (λ x, p x = false) l.
Proof.
  revert i. induction l as [|x l IH]; intros i Hi; simpl.
  - split; [constructor | done].
  - destruct (p x) eqn:E.
    + split; [lia | intros H; inversion H; congruence].
    + rewrite IH by lia. split; [by constructor | by inversion 1].
Qed.

Lemma findIndex_from_first {A : Type} (p : A → bool) (l1 : list A) (x : A)
    (l2 : list A) (i : Z) :
  Forall (λ y, p y = false) l1 → p x = true →
  findIndex_from p (l1 ++ x :: l2) i = i + Z.of_nat (length l1).
Proof.
  revert i. induction l1 as [|y l1 IH]; intros i H Hx; simpl.
  - rewrite Hx. lia.
  - inversion H as [|? ? Hy H']; subst. rewrite Hy, IH by done. lia.
Qed.

Lemma Forall_false_split {A : Type} (p : A → bool) (l : list A) :
  Forall (λ x, p x = false) l ∨
  ∃ l1 x l2, l = l1 ++ x :: l2 ∧ Forall (λ y, p y = false) l1 ∧ p x = true.
Proof.
  induction l as [|x l IH].
  - left. constructor.
  - destruct (p x) eqn:E.
    + right. exists [], x, l. repeat split; [constructor | done].
    + destruct IH as [H | (l1 & y & l2 & -> & H1 & Hy)].
      * left. by constructor.
      * right. exists (x :: l1), y, l2. repeat split; [by constructor | done].
Qed.

Lemma findIndex_spec {A : Type} (p : A → bool) (l : list A) :
  findIndex_view p l (findIndex p l).
Proof.
  unfold findIndex.
  destruct (Forall_false_split p l) as [H | (l1 & x & l2 & E & H1 & Hx)].
  - rewrite (proj2 (findIndex_from_none p l 0 (Z.le_refl 0)) H). by constructor.
  - rewrite E at 2. rewrite findIndex_from_first by done. simpl.
    by apply findIndex_first with x l2.
Qed.

(** ** The methods of FileCache *)

Lemma of_nat_eqb_minus_one (k : nat) : (Z.of_nat k =? -1) = false.
Proof. apply Z.eqb_neq. lia. Qed.

Lemma String_eqb_false (a b : string) : (a =? b)%string = false ↔ a ≠ b.
Proof. apply String.eqb_neq. Qed.

Lemma Forall_name_neq (n : string) (l : list CacheEntry) :
  Forall (λ inf, (name inf =? n)%string = false) l ↔ Forall (λ inf, ¬ named n inf) l.
Proof. apply Forall_iff. intros inf. unfold named. apply String_eqb_false. Qed.

Lemma with_files_id (w : World) : with_files (files (cache (this w))) w = w.
Proof. by destruct w as [d [f cf [v l]]]. Qed.

(** [add] never throws; it overwrites the first entry of that name, or
    appends when there is none. *)
Lemma add_cases (n s : string) (w : World) :
  let l := files (cache (this w)) in
  ∃ l', add n s w = (Return (), with_files l' w) ∧
    ((∃ l1 e l2, l = l1 ++ e :: l2 ∧ Forall (λ inf, ¬ named n inf) l1 ∧
        named n e ∧ l' = l1 ++ {| name := n; sha := s |} :: l2) ∨
     (Forall (λ inf, ¬ named n inf) l ∧ l' = l ++ [{| name := n; sha := s |}])).
Proof.
  intros l. unfold add, bind, get_this. cbn -[findIndex]. fold l.
  destruct (findIndex_spec (λ inf, (name inf =? n)%string) l)
    as [H | l1 e l2 E H He].
  - cbn. eexists. split; [reflexivity |]. right. split; [|done].
    by apply Forall_name_neq.
  - rewrite of_nat_eqb_minus_one.
    cbn -[findIndex]. rewrite Nat2Z.id. rewrite E.
    rewrite list_lookup_middle by done.
    eexists. split; [reflexivity |]. left. exists l1, e, l2.
    apply String.eqb_eq in He.
    repeat split; [by apply Forall_name_neq | done |].
    rewrite (insert_app_r_alt l1 (e :: l2) (length l1)) by lia.
    rewrite Nat.sub_diag. cbn. unfold set_sha. by rewrite He.
Qed.

(** [clear] never throws; with a non-empty name it removes the first entry
    of that name, or nothing when there is none. *)
Lemma clear_cases (n : string) (w : World) :
  n ≠ "" →
  let l := files (cache (this w)) in
  ∃ l', clear (Some n) w = (Return (), with_files l' w) ∧
    ((∃ l1 e l2, l = l1 ++ e :: l2 ∧ Forall (λ inf, ¬ named n inf) l1 ∧
        named n e ∧ l' = l1 ++ l2) ∨
     (Forall (λ inf, ¬ named n inf) l ∧ l' = l)).
Proof.
  intros Hn l. unfold clear, bind, get_this. cbn -[findIndex]. fold l.
  apply String.eqb_neq in Hn. rewrite Hn. cbn -[findIndex].
  destruct (findIndex_spec (λ inf, (name inf =? n)%string) l)
    as [H | l1 e l2 E H He].
  - cbn. exists l. split; [unfold l; by rewrite with_files_id |]. right. split; [|done].
    by apply Forall_name_neq.
  - rewrite of_nat_eqb_minus_one.
    cbn -[findIndex]. rewrite Nat2Z.id. rewrite E.
    eexists. split; [reflexivity |]. left. exists l1, e, l2.
    apply String.eqb_eq in He.
    repeat split; [by apply Forall_name_neq | done |].
    by rewrite delete_middle.
Qed.

Lemma clear_all (o : option string) (w : World) :
  truthy o = false → clear o w = (Return (), with_files [] w).
Proof. intros H. unfold clear, bind, get_this. cbn. by rewrite H. Qed.

Lemma with_files_twice (l l' : list CacheEntry) (w : World) :
  with_files l' (with_files l w) = with_files l' w.
Proof. done. Qed.

Lemma filter_named_none (n : string) (l : list CacheEntry) :
  Forall (λ inf, ¬ named n inf) l → filter (named n) l = [].
Proof.
  induction 1 as [|x l Hx _ IH]; [done |].
  by rewrite filter_cons_False.
Qed.

(** What [add] does to the entries of the name and to the others. *)
Lemma add_filter (n s : string) (w : World) :
  let l := files (cache (this w)) in
  ∃ l', add n s w = (Return (), with_files l' w) ∧
    filter (named n) l' = {| name := n; sha := s |} :: tail (filter (named n) l) ∧
    filter (λ inf, ¬ named n inf) l' = filter (λ inf, ¬ named n inf) l.
Proof.
  intros l. destruct (add_cases n s w) as (l' & Hrun & Hcases).
  exists l'. split; [done |]. fold l in Hcases.
  destruct Hcases as [(l1 & e & l2 & -> & H1 & He & ->) | (H & ->)].
  - rewrite !filter_app, !filter_named_none by done. cbn.
    assert (Hn : named n {| name := n; sha := s |}) by done.
    repeat case_decide; naive_solver.
  - rewrite !filter_app, filter_named_none by done. cbn.
    assert (Hn : named n {| name := n; sha := s |}) by done.
    repeat case_decide; rewrite ?app_nil_r; naive_solver.
Qed.

(** C2, amended. [add(name, sha)] never throws and touches only the
    entries: when some entry has the name it overwrites the hash of the
    first such entry and keeps every other entry in place; when none has, it
    appends the entry. From a state with at most one entry of the name,
    [add(name, s1)] followed by [add(name, s2)] leaves exactly one entry of
    that name, with hash [s2]. *)
Theorem add_upsert (w : World) (n s1 s2 : string) :
  let l := files (cache (this w)) in
  (∃ l', add n s1 w = (Return (), with_files l' w) ∧
     ((∃ l1 e l2, l = l1 ++ e :: l2 ∧ Forall (λ inf, ¬ named n inf) l1 ∧
         named n e ∧ l' = l1 ++ {| name := n; sha := s1 |} :: l2) ∨
      (Forall (λ inf, ¬ named n inf) l ∧ l' = l ++ [{| name := n; sha := s1 |}]))) ∧
  ((length (filter (named n) l) ≤ 1)%nat →
   ∃ l'', (add n s1 ;; add n s2) w = (Return (), with_files l'' w) ∧
     filter (named n) l'' = [{| name := n; sha := s2 |}]).
Proof.
  intros l. split; [apply add_cases |]. intros Hone.
  destruct (add_filter n s1 w) as (l1 & Hrun1 & Hf1 & _).
  destruct (add_filter n s2 (with_files l1 w)) as (l2 & Hrun2 & Hf2 & _).
  exists l2. unfold bind. rewrite Hrun1, Hrun2, with_files_twice.
  split; [done |]. rewrite Hf2. cbn. rewrite Hf1. cbn. fold l.
  destruct (filter (named n) l) as [|x [|y t]]; [done | done | cbn in Hone; lia].
Qed.


Lemma clear_run (o : option string) (w : World) :
  ∃ l', clear o w = (Return (), with_files l' w) ∧
        l' `sublist_of` files (cache (this w)).
Proof.
  destruct (truthy o) eqn:Ho.
  - destruct o as [n|]; [|done].
    assert (n ≠ "") as Hn.
    { intros ->. done. }
    destruct (clear_cases n w Hn) as (l' & Hrun & Hcases).
    exists l'. split; [done |].
    destruct Hcases as [(l1 & e & l2 & -> & _ & _ & ->) | (_ & ->)]; [|done].
    apply sublist_app; [done |]. by apply sublist_cons.
  - exists []. split; [by apply clear_all | apply sublist_nil_l].
Qed.

Lemma add_names (n s : string) (w : World) :
  NoDup (names (this w)) → NoDup (names (this (snd (add n s w)))).
Proof.
  intros Hnd. destruct (add_cases n s w) as (l' & -> & Hcases).
  unfold names in *. cbn.
  destruct Hcases as [(l1 & e & l2 & E & _ & He & ->) | (H & ->)].
  - rewrite E in Hnd. rewrite map_app in *. cbn in *. by rewrite <- He.
  - rewrite map_app. cbn. apply NoDup_app. split; [done |].
    split; [|apply NoDup_singleton].
    intros x Hx ->%list_elem_of_singleton.
    apply list_elem_of_fmap in Hx as (inf & Hname & Hin).
    rewrite Forall_forall in H. by apply (H inf).
Qed.

Lemma sublist_map {A B : Type} (f : A → B) (l1 l2 : list A) :
  l1 `sublist_of` l2 → map f l1 `sublist_of` map f l2.
Proof. induction 1; cbn; by constructor. Qed.

Lemma clear_names (o : option string) (w : World) :
  NoDup (names (this w)) → NoDup (names (this (snd (clear o w)))).
Proof.
  intros Hnd. destruct (clear_run o w) as (l' & -> & Hsub).
  unfold names in *. cbn. eapply sublist_NoDup; [exact Hnd |].
  by apply sublist_map.
Qed.

Lemma append_inj_l (a b c : string) : a +:+ b = a +:+ c → b = c.
Proof. induction a as [|x a IH]; cbn; [done |]. intros [=]. auto. Qed.

(** ** The typed view of parsed documents *)

Lemma CacheEntry_of_to_json (inf : CacheEntry) :
  CacheEntry_of_json (CacheEntry_to_json inf) = Some inf.
Proof. by destruct inf. Qed.

Lemma CacheEntry_to_of_json (j : json) (inf : CacheEntry) :
  CacheEntry_of_json j = Some inf → CacheEntry_to_json inf = j.
Proof.
  unfold CacheEntry_of_json. intros H.
  repeat case_match; try done. simplify_eq.
  match goal with
  | H : _ && _ = true |- _ => apply andb_true_iff in H as [H1 H2]
  end.
  apply String.eqb_eq in H1, H2. by subst.
Qed.

Lemma mapM_CacheEntry_of_to_json (l : list CacheEntry) :
  mapM CacheEntry_of_json (map CacheEntry_to_json l) = Some l.
Proof.
  induction l as [|inf l IH]; [done |].
  cbn [map mapM]. rewrite CacheEntry_of_to_json. cbn. by rewrite IH.
Qed.

Lemma mapM_CacheEntry_to_of_json (js : list json) (l : list CacheEntry) :
  mapM CacheEntry_of_json js = Some l → map CacheEntry_to_json l = js.
Proof.
  revert l. induction js as [|j js IH]; intros l H; cbn in H.
  - by inversion H.
  - simplify_option_eq. cbn. f_equal; [by apply CacheEntry_to_of_json | by apply IH].
Qed.

Lemma FileCacheInfo_of_to_json (doc : FileCacheInfo) :
  FileCacheInfo_of_json (FileCacheInfo_to_json doc) = Some doc.
Proof.
  destruct doc as [v l]. cbn. by rewrite mapM_CacheEntry_of_to_json.
Qed.

Lemma FileCacheInfo_to_of_json (j : json) (doc : FileCacheInfo) :
  FileCacheInfo_of_json j = Some doc → FileCacheInfo_to_json doc = j.
Proof.
  unfold FileCacheInfo_of_json. intros H.
  repeat case_match; try done. subst.
  match goal with
  | Hk : _ && _ = true |- _ => apply andb_true_iff in Hk as [Hk1 Hk2]
  end.
  apply String.eqb_eq in Hk1, Hk2. subst.
  simplify_option_eq. unfold FileCacheInfo_to_json. cbn.
  by erewrite mapM_CacheEntry_to_of_json.
Qed.

Section FileCacheProperties.

Variable sep : string.
Variable JSON_parse : string → option json.
Variable JSON_stringify : FileCacheInfo → string.


(** The file that [get] looks for. *)
Local Abbreviation backing w n := (File_fromArray sep [path (folder (this w)); n]).

Lemma matches_eqb (n s : string) (inf : CacheEntry) :
  (name inf =? n)%string && (sha inf =? s)%string = true ↔ matches n s inf.
Proof.
  unfold matches. rewrite andb_true_iff.
  by rewrite !String.eqb_eq.
Qed.

Lemma get_miss (n s : string) (w : World) :
  (∀ inf, inf ∈ files (cache (this w)) → ¬ matches n s inf) →
  get sep n s w = (Return None, w).
Proof.
  intros H. unfold get, bind, get_this. cbn -[findIndex].
  destruct (findIndex_spec
    (λ inf, (name inf =? n)%string && (sha inf =? s)%string)
    (files (cache (this w)))) as [_ | l1 e l2 E _ He]; [done |].
  apply matches_eqb in He. destruct (H e); [|done].
  rewrite E. apply elem_of_app. right. by left.
Qed.

Lemma get_found (n s : string) (w : World) (inf : CacheEntry) :
  inf ∈ files (cache (this w)) → matches n s inf →
  get sep n s w =
    (Return (if IsFile (backing w n) (disk w) then Some (backing w n) else None), w).
Proof.
  intros Hin Hm. unfold get, bind, get_this. cbn -[findIndex].
  destruct (findIndex_spec
    (λ inf, (name inf =? n)%string && (sha inf =? s)%string)
    (files (cache (this w)))) as [H | l1 e l2 E _ He].
  - rewrite Forall_forall in H. apply matches_eqb in Hm.
    rewrite H in Hm by done. done.
  - rewrite of_nat_eqb_minus_one, Nat2Z.id, E.
    rewrite list_lookup_middle by done.
    apply matches_eqb in He. destruct He as [-> _].
    unfold is_file. cbn. by destruct (IsFile _ _).
Qed.

(** C1. [get(name, sha)] returns the handle of the file at the root folder
    joined with [name] exactly when some entry of the document has that
    name and that hash and the file exists on disk; in every other case it
    returns [undefined]. The call changes neither the object nor the
    disk. *)
Theorem get_hit_iff (w : World) (n s : string) :
  let hit := (∃ inf, inf ∈ files (cache (this w)) ∧ matches n s inf) ∧
             IsFile (backing w n) (disk w) = true in
  (get sep n s w = (Return (Some (backing w n)), w) ↔ hit) ∧
  (¬ hit → get sep n s w = (Return None, w)).
Proof.
  intros hit. unfold hit.
  destruct (decide (Exists (matches n s) (files (cache (this w)))))
    as [Hex | Hno].
  - apply Exists_exists in Hex as (inf & Hin & Hm).
    rewrite (get_found n s w inf Hin Hm).
    destruct (IsFile (backing w n) (disk w)) eqn:Hf.
    + split; [|intros []; eauto]. split; [eauto | done].
    + split; [|done]. split; [done | by intros [_ ?]].
  - rewrite get_miss.
    + split; [|done]. split; [done |].
      intros [(inf & Hin & Hm) _]. destruct Hno. apply Exists_exists. eauto.
    + intros inf Hin Hm. destruct Hno. apply Exists_exists. eauto.
Qed.

(** C8. When an entry has the name and the hash but its file is not on
    disk, [get] returns [undefined], throws nothing, and leaves the
    document (and the disk) as they were. *)
Theorem get_stale_entry (w : World) (n s : string) (inf : CacheEntry) :
  inf ∈ files (cache (this w)) → matches n s inf →
  IsFile (backing w n) (disk w) = false →
  get sep n s w = (Return None, w).
Proof.
  intros Hin Hm Hf. rewrite (get_found n s w inf Hin Hm). by rewrite Hf.
Qed.

Lemma exec_cons (c : call) (cs : list call) (w : World) :
  exec JSON_stringify (c :: cs) w = exec JSON_stringify cs (snd (invoke JSON_stringify c w)).
Proof. done. Qed.

Lemma save_this (w : World) : this (snd (save JSON_stringify w)) = this w.
Proof.
  unfold save, bind, get_this, write_file. cbn.
  by destruct (Write _ _ _).
Qed.

(** [save] replaces the content of the cache file, and throws only when
    a directory is in its place. *)
Lemma save_run (w : World) :
  disk w !! path (cacheFile (this w)) ≠ Some Directory →
  save JSON_stringify w =
    (Return (),
     {| disk := <[path (cacheFile (this w)) :=
                   RegularFile (JSON_stringify (cache (this w)))]> (disk w);
        this := this w |}).
Proof.
  intros H. unfold save, bind, get_this, write_file, Write.
  cbn [fst snd]. by destruct (disk w !! path (cacheFile (this w))) as [[]|].
Qed.

Lemma invoke_names (c : call) (w : World) :
  NoDup (names (this w)) → NoDup (names (this (snd (invoke JSON_stringify c w)))).
Proof.
  destruct c; unfold invoke; [apply add_names | apply clear_names |].
  by rewrite save_this.
Qed.

Lemma invoke_disk (c : call) (w : World) :
  is_save c = false → disk (snd (invoke JSON_stringify c w)) = disk w.
Proof.
  destruct c as [n s | o |]; [| |done]; intros _; unfold invoke.
  - by destruct (add_cases n s w) as (l' & -> & _).
  - by destruct (clear_run o w) as (l' & -> & _).
Qed.

(** C6. A sequence of [add] and [clear] calls with no [save] among them
    leaves the disk as it was: [cache.json] keeps its content, or stays
    absent. *)
Theorem no_disk_mutation_without_save (cs : list call) (w : World) :
  forallb (λ c, negb (is_save c)) cs = true →
  disk (exec JSON_stringify cs w) = disk w ∧
  disk (exec JSON_stringify cs w) !! path (cacheFile (this w)) =
    disk w !! path (cacheFile (this w)).
Proof.
  intros H. assert (disk (exec JSON_stringify cs w) = disk w) as E; [|by rewrite E].
  revert w. induction cs as [|c cs IH]; intros w; [done |].
  cbn in H. apply andb_true_iff in H as [Hc H].
  rewrite exec_cons, (IH H). apply invoke_disk. by destruct (is_save c).
Qed.

(** C4, amended. When the document a FileCache is constructed with has
    pairwise distinct names (the fresh document of a folder without
    [cache.json] always has), the names of its entries stay pairwise
    distinct after any sequence of [add], [clear] and [save] calls. *)
Theorem names_stay_distinct (rootFolder : File) (d : Disk) (c : FileCache)
    (cs : list call) :
  FileCache_new sep JSON_parse rootFolder d = Constructed c →
  (IsFile (File_fromArray sep [path rootFolder; "cache.json"]) d = true →
   NoDup (names c)) →
  NoDup (names (this (exec JSON_stringify cs {| disk := d; this := c |}))).
Proof.
  intros Hnew Hload.
  assert (NoDup (names c)) as Hc.
  { unfold FileCache_new in Hnew.
    destruct (IsFile _ d); [by apply Hload |].
    injection Hnew as <-. constructor. }
  clear Hnew Hload.
  change c with (this {| disk := d; this := c |}) in Hc.
  generalize dependent {| disk := d; this := c |}. clear c d.
  induction cs as [|x cs IH]; intros w Hw; [done |].
  rewrite exec_cons. apply IH. by apply invoke_names.
Qed.

Lemma FileCache_new_absent (rootFolder : File) (d : Disk) :
  d !! path (File_fromArray sep [path rootFolder; "cache.json"]) = None →
  FileCache_new sep JSON_parse rootFolder d =
    Constructed {| folder := rootFolder;
                   cacheFile := File_fromArray sep [path rootFolder; "cache.json"];
                   cache := {| version := "1.0"; files := [] |} |}.
Proof. intros H. unfold FileCache_new, IsFile. by rewrite H. Qed.

Lemma FileCache_new_parsed (rootFolder : File) (d : Disk) (text : string) (j : json) :
  d !! path (File_fromArray sep [path rootFolder; "cache.json"])
    = Some (RegularFile text) →
  JSON_parse text = Some j →
  FileCache_new sep JSON_parse rootFolder d =
    match FileCacheInfo_of_json j with
    | Some doc =>
        Constructed {| folder := rootFolder;
                       cacheFile := File_fromArray sep [path rootFolder; "cache.json"];
                       cache := doc |}
    | None => OutsideDeclaredType j
    end.
Proof. intros Hd Hp. unfold FileCache_new, IsFile, Read. by rewrite Hd, Hp. Qed.

Lemma FileCache_new_unparsable (rootFolder : File) (d : Disk) (text : string) :
  d !! path (File_fromArray sep [path rootFolder; "cache.json"])
    = Some (RegularFile text) →
  JSON_parse text = None →
  FileCache_new sep JSON_parse rootFolder d = ConstructionThrows SyntaxError.
Proof. intros Hd Hp. unfold FileCache_new, IsFile, Read. by rewrite Hd, Hp. Qed.

(** C7. Construction over a root folder: without [cache.json] the
    document is version ["1.0"] with no entries; with a [cache.json] that
    parses, the parsed document is the one loaded; with a [cache.json]
    that does not parse, construction throws, and no document is set
    up. *)
Theorem construction_contract (rootFolder : File) (d : Disk) :
  let cacheFile := File_fromArray sep [path rootFolder; "cache.json"] in
  (d !! path cacheFile = None →
   FileCache_new sep JSON_parse rootFolder d =
     Constructed {| folder := rootFolder; cacheFile := cacheFile;
                    cache := {| version := "1.0"; files := [] |} |}) ∧
  (∀ text j,
     d !! path cacheFile = Some (RegularFile text) →
     JSON_parse text = Some j →
     loaded (FileCache_new sep JSON_parse rootFolder d) = Some j ∧
     ∀ doc, j = FileCacheInfo_to_json doc →
       FileCache_new sep JSON_parse rootFolder d =
         Constructed {| folder := rootFolder; cacheFile := cacheFile;
                        cache := doc |}) ∧
  (∀ text,
     d !! path cacheFile = Some (RegularFile text) →
     JSON_parse text = None →
     FileCache_new sep JSON_parse rootFolder d = ConstructionThrows SyntaxError).
Proof.
  intros cf. split; [|split].
  - apply FileCache_new_absent.
  - intros text j Hd Hp. rewrite (FileCache_new_parsed _ _ _ _ Hd Hp). split.
    + destruct (FileCacheInfo_of_json j) as [doc|] eqn:E; [|done].
      cbn. by rewrite (FileCacheInfo_to_of_json j doc E).
    + intros doc ->. by rewrite FileCacheInfo_of_to_json.
  - apply FileCache_new_unparsable.
Qed.

Lemma backing_not_cache_json (root : string) :
  path (File_fromArray sep [root; "a"]) ≠ path (File_fromArray sep [root; "cache.json"]).
Proof. cbn. intros H. by apply append_inj_l, append_inj_l in H. Qed.

(** C5. Over a folder without [cache.json]: construct, [add("a","1")],
    [save()], construct again. Both constructions and both calls complete
    normally, and [get("a","1")] on the new instance returns what it
    returns on the first one, after and before the [save]: the file
    [a] of the folder when it exists, [undefined] otherwise. The parser
    and the printer of the platform are assumed to agree on the saved
    document. *)
Theorem persistence_round_trip (rootFolder : File) (d : Disk) :
  let cacheFile := File_fromArray sep [path rootFolder; "cache.json"] in
  let doc := {| version := "1.0"; files := [{| name := "a"; sha := "1" |}] |} in
  d !! path cacheFile = None →
  JSON_parse (JSON_stringify doc) = Some (FileCacheInfo_to_json doc) →
  ∃ c0 w1 c1,
    FileCache_new sep JSON_parse rootFolder d = Constructed c0 ∧
    (add "a" "1" ;; save JSON_stringify) {| disk := d; this := c0 |} = (Return (), w1) ∧
    FileCache_new sep JSON_parse rootFolder (disk w1) = Constructed c1 ∧
    fst (get sep "a" "1" {| disk := disk w1; this := c1 |}) = fst (get sep "a" "1" w1) ∧
    fst (get sep "a" "1" w1) =
      fst (get sep "a" "1" (snd (add "a" "1" {| disk := d; this := c0 |}))) ∧
    fst (get sep "a" "1" w1) =
      Return (if IsFile (File_fromArray sep [path rootFolder; "a"]) d
              then Some (File_fromArray sep [path rootFolder; "a"]) else None).
Proof.
  intros cf doc Hd Hcodec.
  pose proof (FileCache_new_absent rootFolder d Hd) as Hnew. fold cf in Hnew.
  set (c0 := {| folder := rootFolder; cacheFile := cf;
                cache := {| version := "1.0"; files := [] |} |}) in *.
  set (c1 := {| folder := rootFolder; cacheFile := cf; cache := doc |}).
  set (d1 := <[path cf := RegularFile (JSON_stringify doc)]> d).
  exists c0, {| disk := d1; this := c1 |}, c1. unfold bind.
  assert (IsFile (File_fromArray sep [path rootFolder; "a"]) d1 =
          IsFile (File_fromArray sep [path rootFolder; "a"]) d) as Hsame.
  { unfold IsFile, d1. rewrite lookup_insert_ne; [done |].
    intros E. by apply (backing_not_cache_json (path rootFolder)). }
  assert (∀ d', get sep "a" "1" {| disk := d'; this := c1 |} =
            (Return (if IsFile (File_fromArray sep [path rootFolder; "a"]) d'
                     then Some (File_fromArray sep [path rootFolder; "a"]) else None),
             {| disk := d'; this := c1 |})) as Hget.
  { intros d'.
    apply (get_found "a" "1" {| disk := d'; this := c1 |} {| name := "a"; sha := "1" |}).
    - cbn. by left.
    - done. }
  split; [done |]. split.
  { assert (add "a" "1" {| disk := d; this := c0 |} =
            (Return (), {| disk := d; this := c1 |})) as -> by done.
    rewrite save_run; [done |]. cbn [disk this cacheFile c1]. by rewrite Hd. }
  split.
  { cbn [disk].
    rewrite (FileCache_new_parsed rootFolder d1 (JSON_stringify doc)
               (FileCacheInfo_to_json doc)).
    - by rewrite FileCacheInfo_of_to_json.
    - unfold d1. apply lookup_insert_eq.
    - done. }
  split; [done |]. cbn [disk this snd fst].
  change (snd (add "a" "1" {| disk := d; this := c0 |}))
    with {| disk := d; this := c1 |}.
  rewrite !Hget. cbn [fst]. by rewrite Hsame.
Qed.

End FileCacheProperties.

(** C3, amended. With a non-empty name, [clear(name)] throws nothing,
    removes the first entry of that name when there is one and changes
    nothing when there is none; the entries of other names stay as they
    were, in order. With the argument omitted, [clear()] empties the
    document, and from then on every [get] returns [undefined]. *)
Theorem clear_selective (sep : string) (w : World) (n : string) :
  n ≠ "" →
  let l := files (cache (this w)) in
  (∃ l', clear (Some n) w = (Return (), with_files l' w) ∧
     ((∃ l1 e l2, l = l1 ++ e :: l2 ∧ Forall (λ inf, ¬ named n inf) l1 ∧
         named n e ∧ l' = l1 ++ l2) ∨
      (Forall (λ inf, ¬ named n inf) l ∧ l' = l)) ∧
     filter (λ inf, ¬ named n inf) l' = filter (λ inf, ¬ named n inf) l) ∧
  (clear None w = (Return (), with_files [] w) ∧
   ∀ n' s', get sep n' s' (with_files [] w) = (Return None, with_files [] w)).
Proof.
  intros Hn l. split.
  - destruct (clear_cases n w Hn) as (l' & Hrun & Hcases). fold l in Hcases.
    exists l'. repeat split; [done | done |].
    destruct Hcases as [(l1 & e & l2 & -> & H1 & He & ->) | (H & ->)]; [|done].
    rewrite !filter_app. cbn. case_decide; naive_solver.
  - split; [by apply clear_all |]. intros n' s'.
    apply get_miss. cbn. intros inf Hin. by apply elem_of_nil in Hin.
Qed.

(** ** The JSON instance on examples *)

Example parse_stringify_example :
  let doc := {| version := "1.0";
                files := [{| name := "a"; sha := "1" |};
                          {| name := "dir\b.bin"; sha := "e69de29b" |}] |} in
  JSON.parse (JSON.stringify doc) = Some (FileCacheInfo_to_json doc).
Proof. vm_compute. reflexivity. Qed.

Example parse_values_example :
  JSON.parse " [1, -2.5e+3, true, null, {}] " =
    Some (JArray [JNumber "1"; JNumber "-2.5e+3"; JBool true; JNull; JObject []]).
Proof. vm_compute. reflexivity. Qed.

Example parse_rejects_example :
  JSON.parse "{version: 1.0}" = None ∧ JSON.parse "[1,]" = None ∧
  JSON.parse "" = None ∧ JSON.parse "01" = None ∧ JSON.parse "[] []" = None.
Proof. vm_compute. auto. Qed.

(** ** Concrete runs of the cache *)

(** C1 at a hit and at the two kinds of miss of the specification. *)
Lemma get_hit_iff_witness :
  let w := {| disk := {[ "/eide/f.bin" := RegularFile "content" ]};
              this := object [entry "f.bin" "aaa"] |} in
  get "/" "f.bin" "aaa" w = (Return (Some {| path := "/eide/f.bin" |}), w) ∧
  get "/" "f.bin" "bbb" w = (Return None, w) ∧
  get "/" "g.bin" "aaa" w = (Return None, w).
Proof.
  intros w. split; [|split].
  - apply (proj1 (get_hit_iff "/" w "f.bin" "aaa")). split; [|by vm_compute].
    exists (entry "f.bin" "aaa"). split; [by left | done].
  - apply (proj2 (get_hit_iff "/" w "f.bin" "bbb")).
    intros [(inf & Hin & _ & Hs) _].
    apply list_elem_of_singleton in Hin. by subst.
  - apply (proj2 (get_hit_iff "/" w "g.bin" "aaa")).
    intros [(inf & Hin & Hn & _) _].
    apply list_elem_of_singleton in Hin. by subst.
Defined.

(** C8 at an index entry whose file was deleted. *)
Lemma get_stale_entry_witness :
  let w := {| disk := ∅; this := object [entry "a" "1"] |} in
  entry "a" "1" ∈ files (cache (this w)) ∧ matches "a" "1" (entry "a" "1") ∧
  IsFile (File_fromArray "/" [path (folder (this w)); "a"]) (disk w) = false ∧
  get "/" "a" "1" w = (Return None, w).
Proof.
  intros w.
  assert (entry "a" "1" ∈ files (cache (this w))) as Hin by (by left).
  assert (matches "a" "1" (entry "a" "1")) as Hm by done.
  assert (IsFile (File_fromArray "/" [path (folder (this w)); "a"]) (disk w) = false)
    as Hf by (by vm_compute).
  split; [exact Hin |]. split; [exact Hm |]. split; [exact Hf |].
  exact (get_stale_entry "/" w "a" "1" (entry "a" "1") Hin Hm Hf).
Defined.

(** C2 as stated fails on a document loaded with a repeated name: after
    [add("a","x")] and [add("a","y")] two entries are named [a]. So the
    two calls do not leave exactly one entry of the name in every state. *)
Lemma add_twice_counterexample :
  (∃ c, FileCache_new "/" JSON.parse root disk_twice_a = Constructed c ∧
     let w' := snd ((add "a" "x" ;; add "a" "y") {| disk := disk_twice_a; this := c |}) in
     files (cache (this w')) = [entry "a" "y"; entry "a" "2"] ∧
     length (filter (named "a") (files (cache (this w')))) = 2%nat) ∧
  ¬ (∀ (w : World) (n s1 s2 : string),
       ∃ l'', (add n s1 ;; add n s2) w = (Return (), with_files l'' w) ∧
         filter (named n) l'' = [{| name := n; sha := s2 |}]).
Proof.
  split.
  - eexists. split; [by vm_compute |]. by vm_compute.
  - intros H.
    destruct (H {| disk := ∅; this := object (files twice_a) |} "a" "x" "y")
      as (l'' & Hrun & Hone).
    assert ((add "a" "x" ;; add "a" "y")
              {| disk := ∅; this := object (files twice_a) |} =
            (Return (),
             with_files [entry "a" "y"; entry "a" "2"]
               {| disk := ∅; this := object (files twice_a) |})) as Hc
      by (by vm_compute).
    rewrite Hc in Hrun. injection Hrun as <-. by vm_compute in Hone.
Qed.

(** C2, amended, on a document with one entry of the name. *)
Lemma add_upsert_witness :
  let w := {| disk := ∅; this := object [entry "a" "1"; entry "b" "2"] |} in
  (length (filter (named "a") (files (cache (this w)))) ≤ 1)%nat ∧
  ∃ l'', (add "a" "x" ;; add "a" "y") w = (Return (), with_files l'' w) ∧
    filter (named "a") l'' = [entry "a" "y"].
Proof.
  intros w.
  assert (length (filter (named "a") (files (cache (this w)))) ≤ 1)%nat as H
    by (vm_compute; lia).
  split; [exact H |].
  exact (proj2 (add_upsert w "a" "x" "y") H).
Defined.

(** C3 as stated fails at the empty name: [clear("")] empties the document,
    the entry [b] included. So a name given as argument does not always
    leave the entries of other names as they were. *)
Lemma clear_empty_name_counterexample :
  (let w := {| disk := ∅; this := object [entry "" "1"; entry "b" "2"] |} in
   entry "b" "2" ∈ files (cache (this w)) ∧ name (entry "b" "2") ≠ "" ∧
   clear (Some "") w = (Return (), with_files [] w) ∧
   entry "b" "2" ∉ files (cache (this (snd (clear (Some "") w))))) ∧
  ¬ (∀ (w : World) (n : string),
       ∃ l', clear (Some n) w = (Return (), with_files l' w) ∧
         filter (λ inf, ¬ named n inf) l' =
           filter (λ inf, ¬ named n inf) (files (cache (this w)))).
Proof.
  split.
  - intros w. split; [by right; left |]. split; [done |].
    split; [by vm_compute |]. cbn. apply not_elem_of_nil.
  - intros H.
    destruct (H {| disk := ∅; this := object [entry "" "1"; entry "b" "2"] |} "")
      as (l' & Hrun & Hothers).
    assert (clear (Some "")
              {| disk := ∅; this := object [entry "" "1"; entry "b" "2"] |} =
            (Return (),
             with_files []
               {| disk := ∅; this := object [entry "" "1"; entry "b" "2"] |}))
      as Hc by (by vm_compute).
    rewrite Hc in Hrun. injection Hrun as <-. by vm_compute in Hothers.
Qed.

(** C3, amended, at a non-empty name. *)
Lemma clear_selective_witness :
  let w := {| disk := {[ "/eide/b" := RegularFile "content" ]};
              this := object [entry "a" "1"; entry "b" "2"] |} in
  "a" ≠ "" ∧
  clear (Some "a") w = (Return (), with_files [entry "b" "2"] w) ∧
  get "/" "b" "2" (with_files [entry "b" "2"] w) =
    (Return (Some {| path := "/eide/b" |}), with_files [entry "b" "2"] w) ∧
  ∀ n' s', get "/" n' s' (with_files [] w) = (Return None, with_files [] w).
Proof.
  intros w.
  assert ("a" ≠ "") as Hn by done.
  split; [exact Hn |].
  destruct (clear_selective "/" w "a" Hn) as [_ [_ Hall]].
  split; [by vm_compute |]. split; [by vm_compute | exact Hall].
Defined.

(** C4 as stated fails: the constructor keeps a repeated name that the
    document on disk has, and no call was needed to get there. So not
    every constructed FileCache has pairwise distinct names. *)
Lemma names_distinct_counterexample :
  (∃ c, FileCache_new "/" JSON.parse root disk_twice_a = Constructed c ∧
     names (this (exec JSON.stringify [] {| disk := disk_twice_a; this := c |}))
       = ["a"; "a"]) ∧
  ¬ (∀ (rootFolder : File) (d : Disk) (c : FileCache) (cs : list call),
       FileCache_new "/" JSON.parse rootFolder d = Constructed c →
       NoDup (names (this (exec JSON.stringify cs {| disk := d; this := c |})))).
Proof.
  split.
  - eexists. split; [by vm_compute |]. by vm_compute.
  - intros H.
    assert (FileCache_new "/" JSON.parse root disk_twice_a =
            Constructed (object (files twice_a))) as Hnew by (by vm_compute).
    specialize (H root disk_twice_a _ [] Hnew).
    vm_compute in H. apply NoDup_cons in H as [Hin _].
    apply Hin. by left.
Qed.

(** C4, amended, from a folder without [cache.json]. *)
Lemma names_stay_distinct_witness :
  let cs := [call_add "a" "1"; call_add "b" "2"; call_add "a" "3";
             call_clear (Some "b"); call_save; call_add "b" "4"] in
  FileCache_new "/" JSON.parse root ∅ = Constructed (object []) ∧
  (IsFile (File_fromArray "/" [path root; "cache.json"]) ∅ = true →
   NoDup (names (object []))) ∧
  NoDup (names (this (exec JSON.stringify cs {| disk := ∅; this := object [] |}))).
Proof.
  intros cs.
  assert (FileCache_new "/" JSON.parse root ∅ = Constructed (object [])) as Hnew
    by (by vm_compute).
  assert (IsFile (File_fromArray "/" [path root; "cache.json"]) ∅ = true →
          NoDup (names (object []))) as Hload by (intros _; constructor).
  split; [exact Hnew |]. split; [exact Hload |].
  exact (names_stay_distinct "/" JSON.parse JSON.stringify root ∅ (object []) cs
           Hnew Hload).
Defined.

(** C5 with the JSON instance, over a folder that holds the file [a]. *)
Lemma persistence_round_trip_witness :
  let d : Disk := {[ "/eide/a" := RegularFile "content" ]} in
  let doc := {| version := "1.0"; files := [entry "a" "1"] |} in
  d !! path cache_json = None ∧
  JSON.parse (JSON.stringify doc) = Some (FileCacheInfo_to_json doc) ∧
  ∃ c0 w1 c1,
    FileCache_new "/" JSON.parse root d = Constructed c0 ∧
    (add "a" "1" ;; save JSON.stringify) {| disk := d; this := c0 |} = (Return (), w1) ∧
    FileCache_new "/" JSON.parse root (disk w1) = Constructed c1 ∧
    fst (get "/" "a" "1" {| disk := disk w1; this := c1 |}) = fst (get "/" "a" "1" w1) ∧
    fst (get "/" "a" "1" w1) =
      fst (get "/" "a" "1" (snd (add "a" "1" {| disk := d; this := c0 |}))) ∧
    fst (get "/" "a" "1" w1) =
      Return (if IsFile (File_fromArray "/" [path root; "a"]) d
              then Some (File_fromArray "/" [path root; "a"]) else None).
Proof.
  intros d doc.
  assert (d !! path cache_json = None) as Hd by (by vm_compute).
  assert (JSON.parse (JSON.stringify doc) = Some (FileCacheInfo_to_json doc))
    as Hcodec by (by vm_compute).
  split; [exact Hd |]. split; [exact Hcodec |].
  exact (persistence_round_trip "/" JSON.parse JSON.stringify root d Hd Hcodec).
Defined.

(** C6 on three calls over a disk that holds a [cache.json]. *)
Lemma no_disk_mutation_without_save_witness :
  let w := {| disk := disk_twice_a; this := object [entry "a" "1"] |} in
  let cs := [call_add "b" "2"; call_clear (Some "a"); call_clear None; call_add "c" "3"] in
  forallb (λ c, negb (is_save c)) cs = true ∧
  disk (exec JSON.stringify cs w) = disk w ∧
  disk (exec JSON.stringify cs w) !! path (cacheFile (this w)) =
    disk w !! path (cacheFile (this w)).
Proof.
  intros w cs.
  assert (forallb (λ c, negb (is_save c)) cs = true) as H by reflexivity.
  split; [exact H |].
  exact (no_disk_mutation_without_save JSON.stringify cs w H).
Defined.

(** C7 with the JSON instance: no file, a file that parses, a file that
    does not. *)
Lemma construction_contract_witness :
  let good : Disk := {[ path cache_json := RegularFile (JSON.stringify twice_a) ]} in
  let bad : Disk := {[ path cache_json := RegularFile "{version: 1.0" ]} in
  ((∅ : Disk) !! path cache_json = None ∧
   FileCache_new "/" JSON.parse root ∅ = Constructed (object [])) ∧
  (good !! path cache_json = Some (RegularFile (JSON.stringify twice_a)) ∧
   JSON.parse (JSON.stringify twice_a) = Some (FileCacheInfo_to_json twice_a) ∧
   loaded (FileCache_new "/" JSON.parse root good) = Some (FileCacheInfo_to_json twice_a)) ∧
  (bad !! path cache_json = Some (RegularFile "{version: 1.0") ∧
   JSON.parse "{version: 1.0" = None ∧
   FileCache_new "/" JSON.parse root bad = ConstructionThrows SyntaxError).
Proof.
  intros good bad.
  assert ((∅ : Disk) !! path cache_json = None) as H0 by (by vm_compute).
  assert (good !! path cache_json = Some (RegularFile (JSON.stringify twice_a)))
    as H1 by (by vm_compute).
  assert (JSON.parse (JSON.stringify twice_a) = Some (FileCacheInfo_to_json twice_a))
    as H1' by (by vm_compute).
  assert (bad !! path cache_json = Some (RegularFile "{version: 1.0")) as H2
    by (by vm_compute).
  assert (JSON.parse "{version: 1.0" = None) as H2' by (by vm_compute).
  split; [|split].
  - split; [exact H0 |].
    exact (proj1 (construction_contract "/" JSON.parse root ∅) H0).
  - split; [exact H1 |]. split; [exact H1' |].
    exact (proj1 (proj1 (proj2 (construction_contract "/" JSON.parse root good))
                    _ _ H1 H1')).
  - split; [exact H2 |]. split; [exact H2' |].
    exact (proj2 (proj2 (construction_contract "/" JSON.parse root bad)) _ H2 H2').
Defined.

(** ** genGithubHash *)

Lemma list_byte_of_string_app (a b : string) :
  list_byte_of_string (a +:+ b) = list_byte_of_string a ++ list_byte_of_string b.
Proof.
  unfold list_byte_of_string.
  induction a as [|c a IH]; [done |].
  change (String c a +:+ b) with (String c (a +:+ b)).
  cbn [list_ascii_of_string map app]. by rewrite IH.
Qed.

Lemma Buffer_concat_exact (header content : Buffer) :
  Buffer_concat [header; content] (length header + length content) =
    header ++ content.
Proof.
  unfold Buffer_concat. cbn [concat]. rewrite app_nil_r.
  rewrite <- length_app. apply take_app_length.
Qed.

Lemma read_decimal_digit (a m : N) (acc : string) :
  (m < 10)%N →
  read_decimal a (String (ascii_of_N (48 + m)) acc) = read_decimal (a * 10 + m) acc.
Proof.
  intros Hm. cbn [read_decimal]. rewrite N_ascii_embedding by lia.
  replace ((48 <=? 48 + m) && (48 + m <=? 57))%N with true.
  - f_equal. lia.
  - symmetry. apply andb_true_iff. split; apply N.leb_le; lia.
Qed.

Lemma decimal_digits_read (fuel : nat) (n : N) (acc : string) :
  (n < 10 ^ N.of_nat fuel)%N →
  read_decimal 0 (decimal_digits fuel n acc) = read_decimal n acc.
Proof.
  revert n acc. induction fuel as [|fuel IH]; intros n acc Hn.
  - cbn in Hn. assert (n = 0%N) as -> by lia. done.
  - cbn [decimal_digits].
    assert (n mod 10 < 10)%N as Hm by (apply N.mod_lt; lia).
    pose proof (N.div_mod n 10 ltac:(lia)) as Hdm.
    destruct (n <? 10)%N eqn:E.
    + apply N.ltb_lt in E. rewrite read_decimal_digit by done.
      rewrite N.mod_small by done. f_equal.
    + rewrite IH.
      * rewrite read_decimal_digit by done. f_equal.
        generalize dependent (n mod 10)%N. generalize dependent (n / 10)%N.
        intros. lia.
      * apply N.Div0.div_lt_upper_bound.
        rewrite Nat2N.inj_succ, N.pow_succ_r' in Hn. lia.
Qed.

(** The string of a length is its decimal numeral. *)
Lemma Number_toString_decimal (n : N) :
  read_decimal 0 (Number_toString n) = Some n.
Proof.
  unfold Number_toString. rewrite decimal_digits_read; [done |].
  rewrite Nat2N.inj_succ, N2Nat.id.
  destruct (N.eq_dec n 0%N) as [-> | Hn]; [done |].
  apply N.lt_le_trans with (2 ^ N.succ (N.log2 n))%N.
  - apply N.log2_spec. lia.
  - apply N.pow_le_mono_l. lia.
Qed.

(** A digest in hexadecimal has lowercase digits only. *)
Lemma to_hex_lowercase (l : Buffer) :
  forallb is_lower_hex (list_ascii_of_string (to_hex l)) = true.
Proof.
  induction l as [|b l IH]; [done |].
  cbn [to_hex list_ascii_of_string forallb]. rewrite IH.
  by destruct b.
Qed.

(** C9. On a buffer, [genGithubHash] returns the hexadecimal digest, in
    lowercase, that the algorithm ["sha1"] gives for the header [blob],
    space, decimal length, a zero byte, followed by the buffer: the hash git
    gives a blob of that content. No disk is read on this path. *)
Theorem genGithubHash_blob (digest_of : string → Buffer → Buffer) (b : Buffer)
    (d : Disk) :
  genGithubHash digest_of (inr b) d =
    Return (to_hex (digest_of "sha1" (git_blob b))) ∧
  read_decimal 0 (Number_toString (N.of_nat (length b))) = Some (N.of_nat (length b)) ∧
  forallb is_lower_hex
    (list_ascii_of_string (to_hex (digest_of "sha1" (git_blob b)))) = true.
Proof.
  split; [|split; [apply Number_toString_decimal | apply to_hex_lowercase]].
  unfold genGithubHash, digest_hex, update, createHash, git_blob, Buffer_from.
  cbn [algorithm written app]. rewrite Buffer_concat_exact.
  by rewrite !list_byte_of_string_app, <- !app_assoc.
Qed.

Example sha1_abc_example :
  to_hex (SHA1.digest (list_byte_of_string "abc")) =
    "a9993e364706816aba3e25717850c26c9cd0d89d".
Proof. vm_compute. reflexivity. Qed.

Example Number_toString_example :
  Number_toString 0 = "0" ∧ Number_toString 7 = "7" ∧
  Number_toString 1024 = "1024" ∧ Number_toString 65535 = "65535".
Proof. vm_compute. auto. Qed.

(** The hashes git prints for the empty blob and for the six bytes of
    [hello] and a line feed. *)
Example genGithubHash_examples :
  genGithubHash SHA1.digest_of (inr []) ∅ =
    Return "e69de29bb2d1d6434b8b29ae775ad8c2e48c5391" ∧
  genGithubHash SHA1.digest_of
    (inr (list_byte_of_string "hello" ++ [Byte.x0a])) ∅ =
    Return "ce013625030ba8dba906f756967f9e9ca394464a".
Proof. vm_compute. auto. Qed.

(** ** Version strings *)

(** *** The matcher accepts only strings of the language *)

Lemma nullable_lang (r : regex) : nullable r = true → lang r [].
Proof.
  induction r as [| | p | r1 IH1 r2 IH2 | r1 IH1 r2 IH2 | r IH]; cbn; try done.
  - constructor.
  - intros [H1 H2]%andb_true_iff.
    change (@nil N) with (@nil N ++ []). constructor; auto.
  - intros [H | H]%orb_true_iff; [apply lang_alt_l | apply lang_alt_r]; auto.
  - intros _. constructor.
Qed.

Lemma derive_lang (c : N) (r : regex) (s : jsstring) :
  lang (derive c r) s → lang r (c :: s).
Proof.
  revert s.
  induction r as [| | p | r1 IH1 r2 IH2 | r1 IH1 r2 IH2 | r IH]; intros s; cbn.
  - inversion 1.
  - inversion 1.
  - destruct (p c) eqn:E; inversion 1; subst. by constructor.
  - destruct (nullable r1) eqn:E.
    + inversion 1 as [| | | ? ? ? Hl | ? ? ? Hr | |]; subst.
      * inversion Hl as [| | ? ? s1 s2 H1 H2 | | | |]; subst.
        change (c :: s1 ++ s2) with ((c :: s1) ++ s2). constructor; auto.
      * change (c :: s) with ([] ++ c :: s).
        constructor; [by apply nullable_lang | auto].
    + inversion 1 as [| | ? ? s1 s2 H1 H2 | | | |]; subst.
      change (c :: s1 ++ s2) with ((c :: s1) ++ s2). constructor; auto.
  - inversion 1; subst; [apply lang_alt_l | apply lang_alt_r]; auto.
  - inversion 1 as [| | ? ? s1 s2 H1 H2 | | | |]; subst.
    change (c :: s1 ++ s2) with ((c :: s1) ++ s2). constructor; auto.
Qed.

Lemma test_lang (r : regex) (s : jsstring) : test r s = true → lang r s.
Proof.
  revert r. induction s as [|c s IH]; intros r; cbn.
  - apply nullable_lang.
  - intros H. by apply derive_lang, IH.
Qed.

Lemma lang_nullable (r : regex) : lang r [] → nullable r = true.
Proof.
  remember (@nil N) as s eqn:Es. intros H.
  induction H as [| | r1 r2 s1 s2 _ IH1 _ IH2 | r1 r2 s _ IH | r1 r2 s _ IH
                  | |]; cbn; try done.
  - apply app_eq_nil in Es as [-> ->]. by rewrite IH1, IH2.
  - by rewrite IH.
  - rewrite IH by done. apply orb_true_r.
Qed.

Lemma lang_derive (c : N) (r : regex) (s : jsstring) :
  lang r (c :: s) → lang (derive c r) s.
Proof.
  remember (c :: s) as cs eqn:Ecs. intros H. revert c s Ecs.
  induction H as [| p x Hx | r1 r2 s1 s2 H1 IH1 H2 IH2 | r1 r2 t _ IH
                  | r1 r2 t _ IH | | r s1 s2 H1 IH1 H2 IH2];
    intros c s Ecs; cbn.
  - done.
  - injection Ecs as -> <-. rewrite Hx. constructor.
  - destruct s1 as [|x s1'].
    + cbn in Ecs. subst s2. rewrite (lang_nullable r1 H1).
      apply lang_alt_r. by apply IH2.
    + cbn in Ecs. injection Ecs as -> <-.
      assert (lang (Seq (derive c r1) r2) (s1' ++ s2)) as Hseq
        by (constructor; auto).
      destruct (nullable r1); [by apply lang_alt_l | done].
  - apply lang_alt_l. by apply IH.
  - apply lang_alt_r. by apply IH.
  - done.
  - destruct s1 as [|x s1'].
    + cbn in Ecs. subst s2. by apply IH2.
    + cbn in Ecs. injection Ecs as -> <-. constructor; auto.
Qed.

(** The matcher decides the language of the expression. *)
Lemma test_iff_lang (r : regex) (s : jsstring) : test r s = true ↔ lang r s.
Proof.
  split; [apply test_lang |].
  revert r. induction s as [|c s IH]; intros r H; cbn.
  - by apply lang_nullable.
  - by apply IH, lang_derive.
Qed.

Lemma lang_star_class (p : N → bool) (s : jsstring) :
  lang (Star (Class p)) s → Forall (λ x, p x = true) s.
Proof.
  remember (Star (Class p)) as r eqn:Er. intros H.
  induction H as [| | | | | r | r s1 s2 H1 _ H2 IH2]; try done.
  injection Er as ->. inversion H1; subst. constructor; auto.
Qed.

(** *** The pieces of an accepted string *)

Ltac code_unit_cases :=
  repeat match goal with
    | H : context [(?a <=? ?b)%N] |- _ => destruct (N.leb_spec a b)
    | H : context [(?a =? ?b)%N] |- _ => destruct (N.eqb_spec a b)
    | |- context [(?a <=? ?b)%N] => destruct (N.leb_spec a b)
    | |- context [(?a =? ?b)%N] => destruct (N.eqb_spec a b)
    end;
  cbn in *; try done; try lia.

Lemma digit_not_white (c : N) : isDigit c = true → isWhiteSpace c = false.
Proof. unfold isDigit, isWhiteSpace. intros H. code_unit_cases. Qed.

Lemma digit_not_dot (c : N) : isDigit c = true → c ≠ 46%N.
Proof. unfold isDigit. intros H ->. done. Qed.

Lemma white_not_dot (c : N) : isWhiteSpace c = true → c ≠ 46%N.
Proof. intros H ->. done. Qed.

Lemma dot_is_46 (c : N) : isDot c = true → c = 46%N.
Proof. unfold isDot. by intros H%N.eqb_eq. Qed.

Lemma split_no_sep (a : jsstring) :
  Forall (λ x, x ≠ 46%N) a → split 46 a = [a].
Proof.
  induction 1 as [|x a Hx _ IH]; [done |].
  cbn. rewrite IH. by apply N.eqb_neq in Hx as ->.
Qed.

Lemma split_sep (a rest : jsstring) :
  Forall (λ x, x ≠ 46%N) a → split 46 (a ++ 46%N :: rest) = a :: split 46 rest.
Proof.
  induction 1 as [|x a Hx _ IH]; [done |].
  cbn [app split]. rewrite IH. by apply N.eqb_neq in Hx as ->.
Qed.

Lemma piece_no_sep (w : jsstring) (c : N) (d w' : jsstring) :
  Forall (λ x, isWhiteSpace x = true) w → isDigit c = true →
  Forall (λ x, isDigit x = true) d → Forall (λ x, isWhiteSpace x = true) w' →
  Forall (λ x, x ≠ 46%N) (w ++ c :: d ++ w').
Proof.
  intros Hw Hc Hd Hw'.
  apply Forall_app. split; [by eapply Forall_impl, white_not_dot |].
  constructor; [by apply digit_not_dot |].
  apply Forall_app. split;
    [by eapply Forall_impl, digit_not_dot | by eapply Forall_impl, white_not_dot].
Qed.

Lemma lang_plus_digits (s : jsstring) :
  lang (Plus (Class isDigit)) s →
  ∃ c d, s = c :: d ∧ isDigit c = true ∧ Forall (λ x, isDigit x = true) d.
Proof.
  inversion 1 as [| | ? ? s1 s2 H1 H2 | | | |]; subst.
  inversion H1; subst. eexists _, _. split; [done |].
  split; [done | by apply lang_star_class].
Qed.

(** After the first component: groups of a dot and digits, then white
    space. Every piece between two dots is a numeric piece. *)
Lemma pieces_of_groups (g w' : jsstring) :
  lang (Star (Seq (Class isDot) (Plus (Class isDigit)))) g →
  Forall (λ x, isWhiteSpace x = true) w' →
  ∀ w c d,
    Forall (λ x, isWhiteSpace x = true) w → isDigit c = true →
    Forall (λ x, isDigit x = true) d →
    Forall numeric_piece (split 46 (w ++ c :: d ++ g ++ w')).
Proof.
  remember (Star (Seq (Class isDot) (Plus (Class isDigit)))) as r eqn:Er.
  intros H Hw'.
  induction H as [| | | | | r | r s1 s2 H1 _ H2 IH2]; try done;
    intros w c d Hw Hc Hd.
  - cbn [app]. rewrite split_no_sep by by apply piece_no_sep.
    constructor; [|constructor]. by exists w, c, d, w'.
  - injection Er as ->.
    inversion H1 as [| | ? ? dot ds Hdot Hds | | | |]; subst.
    inversion Hdot as [| ? x Hx | | | | |]; subst.
    apply dot_is_46 in Hx as ->.
    apply lang_plus_digits in Hds as (c1 & d1 & -> & Hc1 & Hd1).
    replace (w ++ c :: d ++ (([46%N] ++ c1 :: d1) ++ s2) ++ w')
      with ((w ++ c :: d ++ []) ++ 46%N :: ([] ++ c1 :: d1 ++ s2 ++ w')).
    + rewrite split_sep by (apply piece_no_sep; auto).
      constructor; [by exists w, c, d, [] |].
      apply IH2; auto.
    + rewrite app_nil_r. cbn. by rewrite <- !app_assoc.
Qed.

Lemma version_pieces (v : jsstring) :
  isVersionString v = true → Forall numeric_piece (split 46 v).
Proof.
  intros H%test_lang. unfold version_regex in H.
  inversion H as [| | ? ? w t1 Hw Ht1 | | | |]; subst.
  inversion Ht1 as [| | ? ? d0 t2 Hd0 Ht2 | | | |]; subst.
  inversion Ht2 as [| | ? ? g w' Hg Hw' | | | |]; subst.
  apply lang_star_class in Hw, Hw'.
  apply lang_plus_digits in Hd0 as (c & d & -> & Hc & Hd).
  cbn [app]. rewrite app_comm_cons.
  replace ((c :: d) ++ g ++ w') with (c :: d ++ g ++ w') by done.
  apply pieces_of_groups; auto.
  unfold Plus in Hg.
  inversion Hg as [| | ? ? g1 g2 Hg1 Hg2 | | | |]; subst.
  by constructor.
Qed.

(** *** compareVersion on accepted strings *)

Lemma trimStart_white (w rest : jsstring) (c : N) :
  Forall (λ x, isWhiteSpace x = true) w → isWhiteSpace c = false →
  trimStart (w ++ c :: rest) = c :: rest.
Proof.
  intros Hw Hc. induction Hw as [|x w Hx _ IH]; cbn.
  - by rewrite Hc.
  - by rewrite Hx.
Qed.

Lemma digit_value (c : N) :
  isDigit c = true → digitValue c = Some (c - 48)%N ∧ (c - 48 < 10)%N.
Proof.
  unfold isDigit, digitValue. intros H. rewrite H.
  split; [done |]. code_unit_cases.
Qed.

Lemma not_hex_marker (c1 : N) :
  isDigit c1 = true ∨ isWhiteSpace c1 = true →
  ((c1 =? 120) || (c1 =? 88))%N = false.
Proof.
  intros [H | H].
  - unfold isDigit in H. code_unit_cases.
  - destruct (N.eqb_spec c1 120) as [-> | _]; [done |].
    destruct (N.eqb_spec c1 88) as [-> | _]; done.
Qed.

Lemma Forall_bool_filter {A : Type} (P : A → Prop) (f : A → bool) (l : list A) :
  Forall P l → Forall P (List.filter f l).
Proof.
  induction 1 as [|x l Hx _ IH]; cbn; [constructor |].
  destruct (f x); [by constructor | done].
Qed.

Section CompareVersionProperties.

Variable Number : Type.
Variable toNumber : bool → N → Number.
Variable gt lt : Number → Number → bool.

(** [parseInt] reads a number in every numeric piece. *)
Lemma parseInt_numeric_piece (piece : jsstring) :
  numeric_piece piece → is_Some (parseInt Number toNumber piece).
Proof.
  intros (w & c & d & w' & -> & Hw & Hc & Hd & Hw').
  unfold parseInt.
  rewrite trimStart_white by (auto using digit_not_white).
  assert ((c =? 45)%N = false ∧ (c =? 43)%N = false) as [-> ->].
  { unfold isDigit in Hc. split; code_unit_cases. }
  destruct (digit_value c Hc) as [Hv Hlt].
  assert (∀ R str, (R, str) = (10%N, c :: d ++ w') →
            is_Some match radixDigits R str with
                    | [] => None
                    | ds => Some (toNumber false (mathInt R ds))
                    end) as Hten.
  { intros R str [= -> ->]. cbn [radixDigits]. rewrite Hv.
    apply N.ltb_lt in Hlt as ->. done. }
  destruct (d ++ w') as [|c1 rest] eqn:E.
  - by apply Hten.
  - assert (isDigit c1 = true ∨ isWhiteSpace c1 = true) as Hc1.
    { destruct d as [|x d'].
      - cbn in E. subst w'. right. by inversion Hw'.
      - cbn in E. injection E as -> _. left. by inversion Hd. }
    rewrite (not_hex_marker c1 Hc1), andb_false_r. by apply Hten.
Qed.

Lemma compare_loop_sign (v1 v2 : jsstring) (v1_li v2_li : list jsstring)
    (todo index : nat) (after : Outcome) :
  Forall numeric_piece v1_li → Forall numeric_piece v2_li →
  (index + todo ≤ length v1_li)%nat → (index + todo ≤ length v2_li)%nat →
  is_sign after →
  is_sign (compare_loop Number toNumber gt lt v1 v2 v1_li v2_li todo index after).
Proof.
  intros H1 H2. revert index.
  induction todo as [|todo IH]; intros index Hl1 Hl2 Hafter; [done |].
  cbn [compare_loop]. unfold parseInt_at.
  destruct (lookup_lt_is_Some_2 v1_li index) as [s1 Hs1]; [lia |].
  destruct (lookup_lt_is_Some_2 v2_li index) as [s2 Hs2]; [lia |].
  rewrite Hs1, Hs2.
  destruct (parseInt_numeric_piece s1) as [n1 ->];
    [exact (Forall_lookup_1 _ _ _ _ H1 Hs1) |].
  destruct (parseInt_numeric_piece s2) as [n2 ->];
    [exact (Forall_lookup_1 _ _ _ _ H2 Hs2) |].
  destruct (gt n1 n2); [exists 1; auto |].
  destruct (lt n1 n2); [exists (-1); auto |].
  apply IH; [lia | lia | done].
Qed.

(** C10. On two strings that [isVersionString] accepts, [compareVersion]
    throws nothing and returns -1, 0 or 1 (the embedding is a total
    function: every call returns). *)
Theorem compareVersion_sign (v1 v2 : jsstring) :
  isVersionString v1 = true → isVersionString v2 = true →
  ∃ r, compareVersion Number toNumber gt lt v1 v2 = Returns r ∧
       (r = -1 ∨ r = 0 ∨ r = 1).
Proof.
  intros H1%version_pieces H2%version_pieces. unfold compareVersion.
  apply compare_loop_sign.
  - by apply Forall_bool_filter.
  - by apply Forall_bool_filter.
  - cbn. lia.
  - cbn. lia.
  - destruct (_ <? _)%nat; [exists 1; auto |].
    destruct (_ <? _)%nat; [exists (-1); auto | exists 0; auto].
Qed.

End CompareVersionProperties.

(** C10 on two accepted strings, with exact integers for numbers. *)
Lemma compareVersion_sign_witness :
  isVersionString (js " 3.10.0") = true ∧ isVersionString (js "3.9.12 ") = true ∧
  ∃ r, compareVersion Z exactNumber Z.gtb Z.ltb (js " 3.10.0") (js "3.9.12 ")
         = Returns r ∧ (r = -1 ∨ r = 0 ∨ r = 1).
Proof.
  assert (isVersionString (js " 3.10.0") = true) as H1 by (by vm_compute).
  assert (isVersionString (js "3.9.12 ") = true) as H2 by (by vm_compute).
  split; [exact H1 |]. split; [exact H2 |].
  exact (compareVersion_sign Z exactNumber Z.gtb Z.ltb _ _ H1 H2).
Defined.

Example compareVersion_examples :
  let cmp a b := compareVersion Z exactNumber Z.gtb Z.ltb (js a) (js b) in
  cmp "1.2.3" "1.2.3" = Returns 0 ∧ cmp "1.10" "1.9" = Returns 1 ∧
  cmp "1.2" "1.2.1" = Returns (-1) ∧ cmp " 2.0 " "10.0" = Returns (-1) ∧
  cmp "1.x" "1.2" = Throws (js "1.x") ∧ cmp "1..2" "1.2" = Returns 0.
Proof. vm_compute. repeat split. Qed.

Example isVersionString_examples :
  isVersionString (js "1.2.3") = true ∧ isVersionString (js " 1.0 ") = true ∧
  isVersionString (js "1") = false ∧ isVersionString (js "1.") = false ∧
  isVersionString (js "1..2") = false ∧ isVersionString (js "v1.2") = false ∧
  isVersionString (js "1 .2") = false ∧ isVersionString (js "") = false.
Proof. vm_compute. repeat split. Qed.

(** * Further properties of the cache *)

(** A list splits in one way only at the first element that satisfies a
    predicate. *)
Lemma first_split_unique {A : Type} (P : A → Prop) (a1 a2 : list A) (x1 x2 : A)
    (b1 b2 : list A) :
  a1 ++ x1 :: b1 = a2 ++ x2 :: b2 →
  Forall (λ y, ¬ P y) a1 → P x1 → Forall (λ y, ¬ P y) a2 → P x2 →
  a1 = a2 ∧ b1 = b2.
Proof.
  revert a2. induction a1 as [|y a1 IH]; intros a2 E H1 Hx1 H2 Hx2.
  - destruct a2 as [|z a2]; cbn in E.
    + by injection E as _ ->.
    + injection E as -> _. inversion H2; subst. done.
  - destruct a2 as [|z a2]; cbn in E.
    + injection E as -> _. inversion H1; subst. done.
    + injection E as -> E. inversion H1; inversion H2; subst.
      destruct (IH a2 E) as [-> ->]; auto.
Qed.

Lemma in_with_first_replaced (n s : string) (l1 l2 : list CacheEntry)
    (e inf : CacheEntry) :
  named n e → ¬ named n inf →
  inf ∈ l1 ++ {| name := n; sha := s |} :: l2 ↔ inf ∈ l1 ++ e :: l2.
Proof.
  intros He Hinf. rewrite !elem_of_app, !elem_of_cons.
  split; intros [H | [-> | H]]; auto; by destruct Hinf.
Qed.

(** The outcome of [get] depends on the disk, the folder and the entries
    that have the name and the hash. *)
Lemma get_same_matches (sep n s : string) (w w' : World) :
  disk w = disk w' → folder (this w) = folder (this w') →
  (∀ inf, matches n s inf →
     inf ∈ files (cache (this w)) ↔ inf ∈ files (cache (this w'))) →
  fst (get sep n s w) = fst (get sep n s w').
Proof.
  intros Hd Hf Hm.
  destruct (decide (Exists (matches n s) (files (cache (this w)))))
    as [Hex | Hno].
  - apply Exists_exists in Hex as (inf & Hin & Hinf).
    rewrite (get_found sep n s w inf Hin Hinf).
    rewrite (get_found sep n s w' inf); [| by apply Hm | done].
    cbn. by rewrite Hd, Hf.
  - rewrite (get_miss sep n s w), (get_miss sep n s w'); [done | |].
    + intros inf Hin Hinf. apply Hno, Exists_exists. exists inf.
      split; [by apply Hm | done].
    + intros inf Hin Hinf. apply Hno, Exists_exists. eauto.
Qed.

(** X1. Looking up what was just added: after [add(name, sha)], in any state,
    [get(name, sha)] returns the file of that name when it is on disk, and
    [undefined] only when it is not. *)
Theorem get_after_add (sep : string) (w : World) (n s : string) :
  get sep n s (snd (add n s w)) =
    (Return (if IsFile (File_fromArray sep [path (folder (this w)); n]) (disk w)
             then Some (File_fromArray sep [path (folder (this w)); n])
             else None),
     snd (add n s w)).
Proof.
  destruct (add_cases n s w) as (l' & -> & Hcases). cbn [snd].
  apply (get_found sep n s (with_files l' w) {| name := n; sha := s |}); [|done].
  cbn. destruct Hcases as [(l1 & e & l2 & _ & _ & _ & ->) | (_ & ->)];
    apply elem_of_app; right; by left.
Qed.

(** X2. Last write wins, in any state: [add(name, s1)] followed by
    [add(name, s2)] leaves the world that [add(name, s2)] alone leaves. *)
Theorem add_last_write_wins (w : World) (n s1 s2 : string) :
  (add n s1 ;; add n s2) w = add n s2 w.
Proof.
  unfold bind.
  destruct (add_cases n s1 w) as (l1' & -> & H1).
  destruct (add_cases n s2 w) as (l2' & -> & H2).
  destruct (add_cases n s2 (with_files l1' w)) as (l3 & -> & H3).
  rewrite with_files_twice. f_equal. f_equal. cbn in H3.
  destruct H1 as [(a1 & e1 & b1 & E1 & Ha1 & He1 & ->) | (Hno1 & ->)].
  - destruct H2 as [(a2 & e2 & b2 & E2 & Ha2 & He2 & ->) | (Hno2 & _)].
    + destruct H3 as [(a3 & e3 & b3 & E3 & Ha3 & He3 & ->) | (Hno3 & _)].
      * destruct (first_split_unique (named n) a3 a1 e3
                    {| name := n; sha := s1 |} b3 b1) as [-> ->];
          [by rewrite <- E3 | done..|].
        destruct (first_split_unique (named n) a2 a1 e2 e1 b2 b1) as [-> ->];
          [by rewrite <- E2 | done..].
      * rewrite Forall_app, Forall_cons in Hno3.
        destruct Hno3 as (_ & Hbad & _). by destruct Hbad.
    + rewrite E1, Forall_app, Forall_cons in Hno2.
      destruct Hno2 as (_ & Hbad & _). by destruct Hbad.
  - destruct H2 as [(a2 & e2 & b2 & E2 & Ha2 & He2 & _) | (_ & ->)].
    + rewrite E2, Forall_app, Forall_cons in Hno1.
      destruct Hno1 as (_ & Hbad & _). by destruct Hbad.
    + destruct H3 as [(a3 & e3 & b3 & E3 & Ha3 & He3 & ->) | (Hno3 & _)].
      * destruct (first_split_unique (named n) a3 (files (cache (this w))) e3
                    {| name := n; sha := s1 |} b3 []) as [-> ->];
          [by rewrite <- E3 | done..].
      * rewrite Forall_app, Forall_cons in Hno3.
        destruct Hno3 as (_ & Hbad & _). by destruct Hbad.
Qed.

(** X3. [add(name, sha)] leaves every lookup of another name as it was. *)
Theorem get_other_after_add (sep : string) (w : World) (n s n' s' : string) :
  n' ≠ n →
  fst (get sep n' s' (snd (add n s w))) = fst (get sep n' s' w).
Proof.
  intros Hne. destruct (add_cases n s w) as (l' & -> & Hcases). cbn [snd].
  apply get_same_matches; [done | done |].
  intros inf [Hn _]. cbn.
  assert (¬ named n inf) as Hinf by (unfold named; congruence).
  destruct Hcases as [(l1 & e & l2 & -> & _ & He & ->) | (_ & ->)].
  - by apply in_with_first_replaced.
  - rewrite elem_of_app, list_elem_of_singleton. split; [|auto].
    intros [H | ->]; [done |]. by destruct Hinf.
Qed.

(** X4. An updated hash makes the old one a miss: when at most one entry
    has the name, after [add(name, sha)] a [get] of that name with any other
    hash returns [undefined]. *)
Theorem get_old_hash_after_add (sep : string) (w : World) (n s s' : string) :
  (length (filter (named n) (files (cache (this w)))) ≤ 1)%nat →
  s' ≠ s →
  get sep n s' (snd (add n s w)) = (Return None, snd (add n s w)).
Proof.
  intros Hone Hs. destruct (add_filter n s w) as (l' & -> & Hf & _).
  cbn [snd]. apply get_miss. cbn. intros inf Hin [Hn Hsha].
  assert (inf ∈ filter (named n) l') as Hin' by (by apply list_elem_of_filter).
  rewrite Hf in Hin'.
  destruct (filter (named n) (files (cache (this w)))) as [|x [|y t]];
    [| | cbn in Hone; lia]; cbn in Hin';
    apply list_elem_of_singleton in Hin'; subst inf; by cbn in Hsha.
Qed.

(** What [clear] does to the entries of the name. *)
Lemma clear_filter (n : string) (w : World) :
  n ≠ "" →
  ∃ l', clear (Some n) w = (Return (), with_files l' w) ∧
    filter (named n) l' = tail (filter (named n) (files (cache (this w)))) ∧
    ∀ inf, ¬ named n inf → inf ∈ l' ↔ inf ∈ files (cache (this w)).
Proof.
  intros Hn. destruct (clear_cases n w Hn) as (l' & Hrun & Hcases).
  exists l'. split; [done |].
  destruct Hcases as [(l1 & e & l2 & -> & H1 & He & ->) | (H & ->)].
  - split.
    + rewrite !filter_app, filter_named_none by done.
      by rewrite filter_cons_True.
    + intros inf Hinf. rewrite !elem_of_app, elem_of_cons.
      split; [intros [?|?]; auto |]. intros [? | [-> | ?]]; auto.
      by destruct Hinf.
  - split; [|done]. by rewrite filter_named_none.
Qed.

(** X5. When at most one entry has the (non-empty) name, after
    [clear(name)] every [get] of that name returns [undefined]. *)
Theorem get_after_clear (sep : string) (w : World) (n s : string) :
  n ≠ "" →
  (length (filter (named n) (files (cache (this w)))) ≤ 1)%nat →
  get sep n s (snd (clear (Some n) w)) = (Return None, snd (clear (Some n) w)).
Proof.
  intros Hn Hone. destruct (clear_filter n w Hn) as (l' & -> & Hf & _).
  cbn [snd]. apply get_miss. cbn. intros inf Hin [Hname _].
  assert (inf ∈ filter (named n) l') as Hin' by (by apply list_elem_of_filter).
  rewrite Hf in Hin'.
  destruct (filter (named n) (files (cache (this w)))) as [|x [|y t]];
    [| | cbn in Hone; lia]; cbn in Hin'; by apply elem_of_nil in Hin'.
Qed.

(** X6. [clear(name)] with a non-empty name leaves every lookup of another
    name as it was. *)
Theorem get_other_after_clear (sep : string) (w : World) (n n' s' : string) :
  n ≠ "" → n' ≠ n →
  fst (get sep n' s' (snd (clear (Some n) w))) = fst (get sep n' s' w).
Proof.
  intros Hn Hne. destruct (clear_filter n w Hn) as (l' & -> & _ & Hother).
  cbn [snd]. apply get_same_matches; [done | done |].
  intros inf [Hname _]. cbn. apply Hother. unfold named. congruence.
Qed.

Section FileCacheFrame.

Variable sep : string.
Variable JSON_parse : string → option json.
Variable JSON_stringify : FileCacheInfo → string.

Lemma invoke_this (c : call) (w : World) :
  ∃ l', this (snd (invoke JSON_stringify c w)) = set_files l' (this w).
Proof.
  destruct c as [n s | o |]; unfold invoke.
  - destruct (add_cases n s w) as (l' & -> & _). by exists l'.
  - destruct (clear_run o w) as (l' & -> & _). by exists l'.
  - rewrite save_this. exists (files (cache (this w))).
    by destruct w as [d [f cf [v l]]].
Qed.

(** X7. No call changes the folder, the path of the cache file or the
    version of the document: after any sequence of [add], [clear] and
    [save] they are what they were. *)
Theorem fixed_fields (cs : list call) (w : World) :
  folder (this (exec JSON_stringify cs w)) = folder (this w) ∧
  cacheFile (this (exec JSON_stringify cs w)) = cacheFile (this w) ∧
  version (cache (this (exec JSON_stringify cs w))) = version (cache (this w)).
Proof.
  revert w. induction cs as [|c cs IH]; intros w; [done |].
  rewrite exec_cons. destruct (IH (snd (invoke JSON_stringify c w))) as (-> & -> & ->).
  by destruct (invoke_this c w) as (l' & ->).
Qed.

Lemma invoke_disk_frame (c : call) (w : World) (p : string) :
  p ≠ path (cacheFile (this w)) →
  disk (snd (invoke JSON_stringify c w)) !! p = disk w !! p.
Proof.
  intros Hp. destruct (is_save c) eqn:E.
  - destruct c; try done. unfold invoke, save, bind, get_this, write_file, Write.
    cbn [fst snd].
    destruct (disk w !! path (cacheFile (this w))) as [[]|]; cbn; try done;
      by rewrite lookup_insert_ne.
  - by rewrite invoke_disk.
Qed.

(** X8. The cache writes one file only: after any sequence of [add],
    [clear] and [save], every path of the disk other than the path of the
    cache file holds what it held. *)
Theorem writes_cache_file_only (cs : list call) (w : World) (p : string) :
  p ≠ path (cacheFile (this w)) →
  disk (exec JSON_stringify cs w) !! p = disk w !! p.
Proof.
  revert w. induction cs as [|c cs IH]; intros w Hp; [done |].
  rewrite exec_cons, IH.
  - by apply invoke_disk_frame.
  - by destruct (invoke_this c w) as (l' & ->).
Qed.

(** X9. Saving and constructing again gives the object back: for an object
    whose cache file is [cache.json] of its folder, whatever its document,
    [save()] completes when no directory is in the way, and a new FileCache
    over the folder is then equal to the object. The parser is assumed to
    read back what the printer writes for the document. *)
Theorem save_then_construct (c : FileCache) (d : Disk) :
  cacheFile c = File_fromArray sep [path (folder c); "cache.json"] →
  d !! path (cacheFile c) ≠ Some Directory →
  JSON_parse (JSON_stringify (cache c)) = Some (FileCacheInfo_to_json (cache c)) →
  ∃ d', save JSON_stringify {| disk := d; this := c |}
          = (Return (), {| disk := d'; this := c |}) ∧
        FileCache_new sep JSON_parse (folder c) d' = Constructed c.
Proof.
  intros Hcf Hd Hcodec.
  exists (<[path (cacheFile c) := RegularFile (JSON_stringify (cache c))]> d).
  split; [by rewrite save_run |].
  rewrite (FileCache_new_parsed sep JSON_parse (folder c) _
             (JSON_stringify (cache c)) (FileCacheInfo_to_json (cache c))).
  - rewrite FileCacheInfo_of_to_json, <- Hcf. by destruct c.
  - rewrite <- Hcf. apply lookup_insert_eq.
  - done.
Qed.

End FileCacheFrame.

(** ** Runs for the further properties *)

Lemma get_other_after_add_witness :
  let w := {| disk := {[ "/eide/b" := RegularFile "content" ]};
              this := object [entry "a" "1"; entry "b" "2"] |} in
  "b" ≠ "a" ∧
  fst (get "/" "b" "2" (snd (add "a" "9" w))) = fst (get "/" "b" "2" w) ∧
  fst (get "/" "b" "2" w) = Return (Some {| path := "/eide/b" |}).
Proof.
  intros w. assert ("b" ≠ "a") as H by done.
  split; [exact H |].
  split; [exact (get_other_after_add "/" w "a" "9" "b" "2" H) | by vm_compute].
Defined.

Lemma get_old_hash_after_add_witness :
  let w := {| disk := {[ "/eide/a" := RegularFile "content" ]};
              this := object [entry "a" "1"; entry "b" "2"] |} in
  (length (filter (named "a") (files (cache (this w)))) ≤ 1)%nat ∧ "1" ≠ "9" ∧
  get "/" "a" "1" (snd (add "a" "9" w)) = (Return None, snd (add "a" "9" w)).
Proof.
  intros w.
  assert (length (filter (named "a") (files (cache (this w)))) ≤ 1)%nat as H
    by (vm_compute; lia).
  assert ("1" ≠ "9") as Hs by done.
  split; [exact H |]. split; [exact Hs |].
  exact (get_old_hash_after_add "/" w "a" "9" "1" H Hs).
Defined.

Lemma get_after_clear_witness :
  let w := {| disk := {[ "/eide/a" := RegularFile "content" ]};
              this := object [entry "a" "1"; entry "b" "2"] |} in
  "a" ≠ "" ∧
  (length (filter (named "a") (files (cache (this w)))) ≤ 1)%nat ∧
  get "/" "a" "1" (snd (clear (Some "a") w)) =
    (Return None, snd (clear (Some "a") w)).
Proof.
  intros w.
  assert ("a" ≠ "") as Hn by done.
  assert (length (filter (named "a") (files (cache (this w)))) ≤ 1)%nat as H
    by (vm_compute; lia).
  split; [exact Hn |]. split; [exact H |].
  exact (get_after_clear "/" w "a" "1" Hn H).
Defined.

Lemma get_other_after_clear_witness :
  let w := {| disk := {[ "/eide/b" := RegularFile "content" ]};
              this := object [entry "a" "1"; entry "b" "2"] |} in
  "a" ≠ "" ∧ "b" ≠ "a" ∧
  fst (get "/" "b" "2" (snd (clear (Some "a") w))) = fst (get "/" "b" "2" w).
Proof.
  intros w.
  assert ("a" ≠ "") as Hn by done.
  assert ("b" ≠ "a") as Hne by done.
  split; [exact Hn |]. split; [exact Hne |].
  exact (get_other_after_clear "/" w "a" "b" "2" Hn Hne).
Defined.

Lemma writes_cache_file_only_witness :
  let w := {| disk := {[ "/eide/a" := RegularFile "content" ]};
              this := object [] |} in
  let cs := [call_add "a" "1"; call_save; call_clear None; call_save] in
  "/eide/a" ≠ path (cacheFile (this w)) ∧
  disk (exec JSON.stringify cs w) !! "/eide/a" = disk w !! "/eide/a".
Proof.
  intros w cs.
  assert ("/eide/a" ≠ path (cacheFile (this w))) as H by done.
  split; [exact H |].
  exact (writes_cache_file_only JSON.stringify cs w "/eide/a" H).
Defined.

Lemma save_then_construct_witness :
  let c := object [entry "a" "1"; entry "b" "2"] in
  cacheFile c = File_fromArray "/" [path (folder c); "cache.json"] ∧
  (∅ : Disk) !! path (cacheFile c) ≠ Some Directory ∧
  JSON.parse (JSON.stringify (cache c)) = Some (FileCacheInfo_to_json (cache c)) ∧
  ∃ d', save JSON.stringify {| disk := ∅; this := c |}
          = (Return (), {| disk := d'; this := c |}) ∧
        FileCache_new "/" JSON.parse (folder c) d' = Constructed c.
Proof.
  intros c.
  assert (cacheFile c = File_fromArray "/" [path (folder c); "cache.json"])
    as Hcf by reflexivity.
  assert ((∅ : Disk) !! path (cacheFile c) ≠ Some Directory) as Hd by done.
  assert (JSON.parse (JSON.stringify (cache c)) =
          Some (FileCacheInfo_to_json (cache c))) as Hcodec by (by vm_compute).
  split; [exact Hcf |]. split; [exact Hd |]. split; [exact Hcodec |].
  exact (save_then_construct "/" JSON.parse JSON.stringify c ∅ Hcf Hd Hcodec).
Defined.

(** * Further properties of version strings *)

Lemma lang_class_star (p : N → bool) (s : jsstring) :
  Forall (λ x, p x = true) s → lang (Star (Class p)) s.
Proof.
  induction 1 as [|c s Hc _ IH]; [constructor |].
  change (c :: s) with ([c] ++ s). constructor; [by constructor | done].
Qed.

Lemma lang_digits1 (d : jsstring) : lang (Plus (Class isDigit)) d ↔ digits1 d.
Proof.
  split.
  - intros (c & d' & -> & Hc & Hd)%lang_plus_digits.
    split; [done | by constructor].
  - intros [Hne Hd]. destruct d as [|c d]; [done |].
    inversion Hd; subst. change (c :: d) with ([c] ++ d).
    apply lang_seq; [by constructor | by apply lang_class_star].
Qed.

Lemma lang_groups (g : jsstring) :
  lang (Star (Seq (Class isDot) (Plus (Class isDigit)))) g ↔
  ∃ ds, g = concat (map (λ d, 46%N :: d) ds) ∧ Forall digits1 ds.
Proof.
  split.
  - remember (Star (Seq (Class isDot) (Plus (Class isDigit)))) as r eqn:Er.
    intros H.
    induction H as [| | | | | r | r s1 s2 H1 _ H2 IH2]; try done.
    + by exists [].
    + injection Er as ->. destruct (IH2 eq_refl) as (ds & -> & Hds).
      inversion H1 as [| | ? ? dot d Hdot Hd | | | |]; subst.
      inversion Hdot as [| ? x Hx | | | | |]; subst.
      apply dot_is_46 in Hx as ->. apply lang_digits1 in Hd.
      exists (d :: ds). split; [done | by constructor].
  - intros (ds & -> & Hds).
    induction Hds as [|d ds Hd _ IH]; [constructor |].
    cbn [map concat]. apply lang_star_cons; [|done].
    change (46%N :: d) with ([46%N] ++ d).
    apply lang_seq; [by constructor | by apply lang_digits1].
Qed.

(** X10. [isVersionString] accepts exactly the strings made of optional
    white space, one or more digits, one or more groups of a dot followed by
    one or more digits, and optional white space. *)
Theorem isVersionString_shape (v : jsstring) :
  isVersionString v = true ↔ version_shape v.
Proof.
  unfold isVersionString. rewrite test_iff_lang. unfold version_regex. split.
  - intros H.
    inversion H as [| | ? ? w t1 Hw Ht1 | | | |]; subst.
    inversion Ht1 as [| | ? ? d0 t2 Hd0 Ht2 | | | |]; subst.
    inversion Ht2 as [| | ? ? g w' Hg Hw' | | | |]; subst.
    apply lang_star_class in Hw, Hw'. apply lang_digits1 in Hd0.
    assert (lang (Star (Seq (Class isDot) (Plus (Class isDigit)))) g) as Hstar.
    { inversion Hg as [| | ? ? g1 g2 Hg1 Hg2 | | | |]; subst. by constructor. }
    apply lang_groups in Hstar as (ds & -> & Hds).
    exists w, d0, ds, w'.
    split; [done |]. split; [done |]. split; [done |].
    split; [|by split].
    intros ->. inversion Hg as [| | ? ? g1 g2 Hg1 Hg2 | | | |]; subst.
    inversion Hg1 as [| | ? ? dot d Hdot _ | | | |]; subst.
    inversion Hdot; subst. cbn in *. done.
  - intros (w & d0 & ds & w' & -> & Hw & Hd0 & Hne & Hds & Hw').
    apply lang_seq; [by apply lang_class_star |].
    apply lang_seq; [by apply lang_digits1 |].
    apply lang_seq; [|by apply lang_class_star].
    destruct ds as [|d ds]; [done |]. inversion Hds; subst.
    cbn [map concat]. apply lang_seq.
    + change (46%N :: d) with ([46%N] ++ d).
      apply lang_seq; [by constructor | by apply lang_digits1].
    + apply lang_groups. by exists ds.
Qed.

(** ** Pieces and components *)

Lemma split_cons_shape (sep : N) (s : jsstring) :
  ∃ piece pieces, split sep s = piece :: pieces.
Proof.
  induction s as [|c s (p & ps & IH)]; cbn; [by eexists _, _ |].
  destruct (c =? sep)%N; [by eexists _, _ |]. rewrite IH. by eexists _, _.
Qed.

(** Splitting at a separator splits the list of pieces. *)
Lemma split_app (sep : N) (a b : jsstring) :
  split sep (a ++ sep :: b) = split sep a ++ split sep b.
Proof.
  induction a as [|c a IH]; cbn.
  - by rewrite N.eqb_refl.
  - destruct (c =? sep)%N; [by rewrite IH |].
    rewrite IH. by destruct (split_cons_shape sep a) as (p & ps & ->).
Qed.

Lemma trimStart_all_white (s : jsstring) :
  Forall (λ x, isWhiteSpace x = true) s → trimStart s = [].
Proof. induction 1 as [|c s Hc _ IH]; cbn; [done |]. by rewrite Hc. Qed.

Lemma trimStart_not_nil (s : jsstring) :
  Exists (λ x, isWhiteSpace x = false) s → trimStart s ≠ [].
Proof.
  induction s as [|c s IH]; intros H; [by inversion H |].
  cbn. destruct (isWhiteSpace c) eqn:E; [|done].
  apply IH. inversion H; subst; [congruence | done].
Qed.

Lemma trimStart_exists (s : jsstring) :
  Exists (λ x, isWhiteSpace x = false) s →
  Exists (λ x, isWhiteSpace x = false) (trimStart s).
Proof.
  induction s as [|c s IH]; intros H; [by inversion H |].
  cbn. destruct (isWhiteSpace c) eqn:E; [|done].
  apply IH. inversion H; subst; [congruence | done].
Qed.

(** A piece is blank exactly when it is white space only. *)
Lemma blank_piece (s : jsstring) :
  isEmpty (trim s) = true ↔ Forall (λ x, isWhiteSpace x = true) s.
Proof.
  split.
  - intros H. apply Forall_forall. intros x Hx.
    destruct (isWhiteSpace x) eqn:E; [done |].
    assert (Exists (λ x, isWhiteSpace x = false) s) as Hex
      by (apply Exists_exists; eauto).
    apply trimStart_exists in Hex.
    assert (Exists (λ x, isWhiteSpace x = false) (rev (trimStart s))) as Hrev.
    { apply Exists_exists in Hex as (y & Hy & Hyw). apply Exists_exists.
      exists y. split; [|done].
      apply list_elem_of_In. apply -> in_rev. by apply list_elem_of_In. }
    apply trimStart_not_nil in Hrev. unfold trim in H.
    destruct (trimStart (rev (trimStart s))) as [|y t]; [done |].
    cbn [rev] in H. destruct (rev t); by cbn in H.
  - intros H. unfold trim. by rewrite (trimStart_all_white s H).
Qed.

Lemma components_app (a b : jsstring) :
  components (a ++ 46%N :: b) = components a ++ components b.
Proof. unfold components. by rewrite split_app, List.filter_app. Qed.

Lemma components_numeric (v : jsstring) :
  isVersionString v = true → Forall numeric_piece (components v).
Proof. intros H. by apply Forall_bool_filter, version_pieces. Qed.

(** A piece without a dot is the one component of its string, unless it is
    blank. *)
Lemma components_piece (j : jsstring) :
  Forall (λ x, x ≠ 46%N) j →
  components j = if isEmpty (trim j) then [] else [j].
Proof.
  intros H. unfold components. rewrite split_no_sep by done. cbn.
  by destruct (isEmpty (trim j)).
Qed.

Lemma components_blank (v : jsstring) :
  components v = [] ↔ forallb blankOrDot v = true.
Proof.
  induction v as [|c v IH]; [done |].
  cbn [forallb]. unfold blankOrDot at 1.
  destruct (N.eqb_spec c 46) as [-> | Hc].
  - change (46%N :: v) with ([] ++ 46%N :: v). rewrite components_app.
    cbn. exact IH.
  - cbn [orb]. unfold components in *. cbn [split].
    apply N.eqb_neq in Hc as ->.
    destruct (split_cons_shape 46 v) as (p & ps & E). rewrite E in *.
    cbn [List.filter] in *.
    destruct (isWhiteSpace c) eqn:Ew.
    + assert (isEmpty (trim (c :: p)) = isEmpty (trim p)) as ->.
      { unfold trim. cbn [trimStart]. by rewrite Ew. }
      cbn [andb]. destruct (isEmpty (trim p)); cbn [negb] in *; [exact IH |].
      split; [done |]. intros Hf. by apply IH in Hf.
    + cbn [andb].
      assert (isEmpty (trim (c :: p)) = false) as ->; [|done].
      destruct (isEmpty (trim (c :: p))) eqn:Eb; [|done].
      apply blank_piece in Eb. inversion Eb; subst. congruence.
Qed.

Section CompareVersionMore.

Variable Number : Type.
Variable toNumber : bool → N → Number.
Variable gt lt : Number → Number → bool.

Lemma compareVersion_components (v1 v2 : jsstring) :
  compareVersion Number toNumber gt lt v1 v2 =
    compare_loop Number toNumber gt lt v1 v2 (components v1) (components v2)
      (Nat.min (length (components v1)) (length (components v2))) 0
      (if (length (components v2) <? length (components v1))%nat then Returns 1
       else if (length (components v1) <? length (components v2))%nat
            then Returns (-1)
            else Returns 0).
Proof. reflexivity. Qed.

(** The strings in the messages do not matter to a result. *)
Lemma compare_loop_returns (v1 v2 v1' v2' : jsstring) (l1 l2 : list jsstring)
    (todo index : nat) (after : Outcome) (r : Z) :
  compare_loop Number toNumber gt lt v1 v2 l1 l2 todo index after = Returns r →
  compare_loop Number toNumber gt lt v1' v2' l1 l2 todo index after = Returns r.
Proof.
  revert index. induction todo as [|todo IH]; intros index; [done |].
  cbn [compare_loop].
  destruct (parseInt_at Number toNumber l1 index); [|done].
  destruct (parseInt_at Number toNumber l2 index); [|done].
  destruct (gt n n0); [done |]. destruct (lt n n0); [done |]. apply IH.
Qed.

(** Over equal numeric pieces the loop runs to its end. *)
Lemma compare_loop_equal (v1 v2 : jsstring) (l1 l2 : list jsstring)
    (todo index : nat) (after : Outcome) :
  (∀ a, gt a a = false) → (∀ a, lt a a = false) →
  (∀ j, (index ≤ j < index + todo)%nat →
     ∃ s, l1 !! j = Some s ∧ l2 !! j = Some s ∧ numeric_piece s) →
  compare_loop Number toNumber gt lt v1 v2 l1 l2 todo index after = after.
Proof.
  intros Hgt Hlt. revert index.
  induction todo as [|todo IH]; intros index H; [done |].
  cbn [compare_loop]. unfold parseInt_at.
  destruct (H index) as (s & -> & -> & Hs); [lia |].
  destruct (parseInt_numeric_piece Number toNumber s Hs) as [a ->].
  rewrite Hgt, Hlt. apply IH. intros j Hj. apply H. lia.
Qed.

(** X11. A version string compares equal to itself: for an accepted string
    [v], [compareVersion(v, v)] is 0 (no number is greater or less than
    itself). *)
Theorem compareVersion_reflexive (v : jsstring) :
  (∀ a, gt a a = false) → (∀ a, lt a a = false) →
  isVersionString v = true →
  compareVersion Number toNumber gt lt v v = Returns 0.
Proof.
  intros Hgt Hlt Hv. rewrite compareVersion_components.
  rewrite compare_loop_equal; [by rewrite Nat.ltb_irrefl | done | done |].
  intros j Hj. rewrite Nat.min_id in Hj.
  destruct (lookup_lt_is_Some_2 (components v) j) as [s Hs]; [lia |].
  exists s. split; [done |]. split; [done |].
  exact (Forall_lookup_1 _ _ _ _ (components_numeric v Hv) Hs).
Qed.

Lemma compare_loop_swap (v1 v2 : jsstring) (l1 l2 : list jsstring)
    (todo index : nat) (ra : Z) :
  (∀ a b, gt a b = lt b a) → (∀ a b, gt a b = true → lt a b = false) →
  Forall numeric_piece l1 → Forall numeric_piece l2 →
  (index + todo ≤ length l1)%nat → (index + todo ≤ length l2)%nat →
  ∃ r, compare_loop Number toNumber gt lt v1 v2 l1 l2 todo index (Returns ra)
         = Returns r ∧
       compare_loop Number toNumber gt lt v2 v1 l2 l1 todo index (Returns (- ra))
         = Returns (- r).
Proof.
  intros Hflip Hasym H1 H2. revert index.
  induction todo as [|todo IH]; intros index Hl1 Hl2; [by exists ra |].
  cbn [compare_loop]. unfold parseInt_at.
  destruct (lookup_lt_is_Some_2 l1 index) as [s1 Hs1]; [lia |].
  destruct (lookup_lt_is_Some_2 l2 index) as [s2 Hs2]; [lia |].
  rewrite Hs1, Hs2.
  destruct (parseInt_numeric_piece Number toNumber s1) as [a ->];
    [exact (Forall_lookup_1 _ _ _ _ H1 Hs1) |].
  destruct (parseInt_numeric_piece Number toNumber s2) as [b ->];
    [exact (Forall_lookup_1 _ _ _ _ H2 Hs2) |].
  rewrite (Hflip b a).
  destruct (gt a b) eqn:Egt.
  - rewrite (Hasym a b Egt). rewrite <- (Hflip a b), Egt. by exists 1.
  - rewrite <- (Hflip a b), Egt. destruct (lt a b); [by exists (-1) |].
    apply IH; lia.
Qed.

(** X12. Swapping the arguments negates the result: for accepted strings,
    when [compareVersion(v1, v2)] is [r] then [compareVersion(v2, v1)] is
    [-r] (greater is less read backwards, and no number is both greater and
    less than another). *)
Theorem compareVersion_antisymmetric (v1 v2 : jsstring) :
  (∀ a b, gt a b = lt b a) → (∀ a b, gt a b = true → lt a b = false) →
  isVersionString v1 = true → isVersionString v2 = true →
  ∃ r, compareVersion Number toNumber gt lt v1 v2 = Returns r ∧
       compareVersion Number toNumber gt lt v2 v1 = Returns (- r).
Proof.
  intros Hflip Hasym Hv1%components_numeric Hv2%components_numeric.
  rewrite !compareVersion_components.
  set (n1 := length (components v1)). set (n2 := length (components v2)).
  rewrite (Nat.min_comm n2 n1).
  assert (∃ ra,
    (if (n2 <? n1)%nat then Returns 1
     else if (n1 <? n2)%nat then Returns (-1) else Returns 0) = Returns ra ∧
    (if (n1 <? n2)%nat then Returns 1
     else if (n2 <? n1)%nat then Returns (-1) else Returns 0) = Returns (- ra))
    as (ra & -> & ->).
  { destruct (Nat.ltb_spec n2 n1), (Nat.ltb_spec n1 n2); try lia;
      [by exists 1 | by exists (-1) | by exists 0]. }
  apply compare_loop_swap; auto; unfold n1, n2; lia.
Qed.

(** X13. More components make a version greater, whatever they are: for an
    accepted string [v] and a piece [j] without dots that is not blank,
    [compareVersion(v + '.' + j, v)] is 1 and [compareVersion(v, v + '.' + j)]
    is -1, also when [j] is not a number: only the common components are
    parsed. *)
Theorem compareVersion_longer (v j : jsstring) :
  (∀ a, gt a a = false) → (∀ a, lt a a = false) →
  isVersionString v = true →
  Forall (λ x, x ≠ 46%N) j → isEmpty (trim j) = false →
  compareVersion Number toNumber gt lt (v ++ 46%N :: j) v = Returns 1 ∧
  compareVersion Number toNumber gt lt v (v ++ 46%N :: j) = Returns (-1).
Proof.
  intros Hgt Hlt Hv Hj Hblank.
  assert (components (v ++ 46%N :: j) = components v ++ [j]) as Hc.
  { rewrite components_app, (components_piece j) by done. by rewrite Hblank. }
  assert (∀ i, (0 ≤ i < 0 + length (components v))%nat →
            ∃ s, (components v ++ [j]) !! i = Some s ∧
                 components v !! i = Some s ∧ numeric_piece s) as Hcommon.
  { intros i Hi.
    destruct (lookup_lt_is_Some_2 (components v) i) as [s Hs]; [lia |].
    exists s. split; [by apply lookup_app_l_Some |]. split; [done |].
    exact (Forall_lookup_1 _ _ _ _ (components_numeric v Hv) Hs). }
  rewrite !compareVersion_components, Hc, length_app. cbn [length].
  split.
  - replace (Nat.min (length (components v) + 1) (length (components v)))
      with (length (components v)) by lia.
    rewrite compare_loop_equal; [| done | done | exact Hcommon].
    by destruct (Nat.ltb_spec (length (components v)) (length (components v) + 1));
      [|lia].
  - replace (Nat.min (length (components v)) (length (components v) + 1))
      with (length (components v)) by lia.
    rewrite compare_loop_equal; [| done | done |].
    + destruct (Nat.ltb_spec (length (components v) + 1) (length (components v)));
        [lia |].
      by destruct (Nat.ltb_spec (length (components v)) (length (components v) + 1));
        [|lia].
    + intros i Hi. destruct (Hcommon i Hi) as (s & ? & ? & ?). by exists s.
Qed.

(** X14. Against a string with no component nothing is parsed and nothing
    is thrown: when one argument holds only dots and white space (the empty
    string, for one), the result is 0 if the other argument is of that kind
    too, and otherwise 1 or -1 by the side of the other argument, whatever
    its characters are. *)
Theorem compareVersion_no_components (v1 v2 : jsstring) :
  (forallb blankOrDot v2 = true →
   compareVersion Number toNumber gt lt v1 v2 =
     Returns (if forallb blankOrDot v1 then 0 else 1)) ∧
  (forallb blankOrDot v1 = true →
   compareVersion Number toNumber gt lt v1 v2 =
     Returns (if forallb blankOrDot v2 then 0 else -1)).
Proof.
  rewrite compareVersion_components. split; intros H.
  - rewrite (proj2 (components_blank v2) H). rewrite Nat.min_0_r. cbn.
    destruct (forallb blankOrDot v1) eqn:E.
    + by rewrite (proj2 (components_blank v1) E).
    + destruct (components v1) eqn:Ec; [|done].
      apply components_blank in Ec. congruence.
  - rewrite (proj2 (components_blank v1) H). cbn.
    destruct (forallb blankOrDot v2) eqn:E.
    + by rewrite (proj2 (components_blank v2) E).
    + destruct (components v2) eqn:Ec; [|done].
      apply components_blank in Ec. congruence.
Qed.

(** X15. Blank components are skipped: a piece of white space only between
    two dots (nothing at all, for a doubled dot) changes no result, on either
    side. *)
Theorem compareVersion_skips_blank (a w b v : jsstring) (r : Z) :
  Forall (λ x, isWhiteSpace x = true) w →
  (compareVersion Number toNumber gt lt (a ++ 46%N :: w ++ 46%N :: b) v = Returns r ↔
   compareVersion Number toNumber gt lt (a ++ 46%N :: b) v = Returns r) ∧
  (compareVersion Number toNumber gt lt v (a ++ 46%N :: w ++ 46%N :: b) = Returns r ↔
   compareVersion Number toNumber gt lt v (a ++ 46%N :: b) = Returns r).
Proof.
  intros Hw.
  assert (components (a ++ 46%N :: w ++ 46%N :: b) = components (a ++ 46%N :: b))
    as Hc.
  { rewrite !components_app, (components_piece w)
      by (by eapply Forall_impl, white_not_dot).
    by rewrite (proj2 (blank_piece w) Hw). }
  rewrite !compareVersion_components, Hc.
  split; split; apply compare_loop_returns.
Qed.

End CompareVersionMore.

(** ** Runs with exact integers for numbers *)

Lemma Zgtb_irrefl (a : Z) : (a >? a) = false.
Proof. rewrite Z.gtb_ltb. apply Z.ltb_irrefl. Qed.

Lemma Zgtb_flip (a b : Z) : (a >? b) = (b <? a).
Proof. apply Z.gtb_ltb. Qed.

Lemma Zgtb_asym (a b : Z) : (a >? b) = true → (a <? b) = false.
Proof. rewrite Z.gtb_ltb. intros H%Z.ltb_lt. apply Z.ltb_ge. lia. Qed.

Lemma isVersionString_shape_witness :
  version_shape (js " 1.20.3 ") ∧ isVersionString (js " 1.20.3 ") = true.
Proof.
  assert (version_shape (js " 1.20.3 ")) as H.
  { exists (js " "), (js "1"), [js "20"; js "3"], (js " ").
    split; [reflexivity |]. split; [by repeat constructor |].
    split; [split; [done | by repeat constructor] |].
    split; [done |]. split; [|by repeat constructor].
    repeat constructor; done. }
  split; [exact H |].
  exact (proj2 (isVersionString_shape (js " 1.20.3 ")) H).
Defined.

Lemma compareVersion_reflexive_witness :
  (∀ a, (a >? a) = false) ∧ (∀ a, (a <? a) = false) ∧
  isVersionString (js "3.10.0") = true ∧
  compareVersion Z exactNumber Z.gtb Z.ltb (js "3.10.0") (js "3.10.0") = Returns 0.
Proof.
  assert (isVersionString (js "3.10.0") = true) as H by (by vm_compute).
  split; [exact Zgtb_irrefl |]. split; [exact Z.ltb_irrefl |]. split; [exact H |].
  exact (compareVersion_reflexive Z exactNumber Z.gtb Z.ltb _
           Zgtb_irrefl Z.ltb_irrefl H).
Defined.

Lemma compareVersion_antisymmetric_witness :
  (∀ a b, (a >? b) = (b <? a)) ∧ (∀ a b, (a >? b) = true → (a <? b) = false) ∧
  isVersionString (js "3.10.0") = true ∧ isVersionString (js "3.9") = true ∧
  ∃ r, compareVersion Z exactNumber Z.gtb Z.ltb (js "3.10.0") (js "3.9") = Returns r ∧
       compareVersion Z exactNumber Z.gtb Z.ltb (js "3.9") (js "3.10.0") = Returns (- r).
Proof.
  assert (isVersionString (js "3.10.0") = true) as H1 by (by vm_compute).
  assert (isVersionString (js "3.9") = true) as H2 by (by vm_compute).
  split; [exact Zgtb_flip |]. split; [exact Zgtb_asym |].
  split; [exact H1 |]. split; [exact H2 |].
  exact (compareVersion_antisymmetric Z exactNumber Z.gtb Z.ltb _ _
           Zgtb_flip Zgtb_asym H1 H2).
Defined.

Lemma compareVersion_longer_witness :
  (∀ a, (a >? a) = false) ∧ (∀ a, (a <? a) = false) ∧
  isVersionString (js "1.2") = true ∧
  Forall (λ x, x ≠ 46%N) (js "beta") ∧ isEmpty (trim (js "beta")) = false ∧
  compareVersion Z exactNumber Z.gtb Z.ltb (js "1.2" ++ 46%N :: js "beta") (js "1.2")
    = Returns 1 ∧
  compareVersion Z exactNumber Z.gtb Z.ltb (js "1.2") (js "1.2" ++ 46%N :: js "beta")
    = Returns (-1).
Proof.
  assert (isVersionString (js "1.2") = true) as H by (by vm_compute).
  assert (Forall (λ x, x ≠ 46%N) (js "beta")) as Hj by (by repeat constructor).
  assert (isEmpty (trim (js "beta")) = false) as Hb by (by vm_compute).
  split; [exact Zgtb_irrefl |]. split; [exact Z.ltb_irrefl |].
  split; [exact H |]. split; [exact Hj |]. split; [exact Hb |].
  exact (compareVersion_longer Z exactNumber Z.gtb Z.ltb _ _
           Zgtb_irrefl Z.ltb_irrefl H Hj Hb).
Defined.

Lemma compareVersion_no_components_witness :
  forallb blankOrDot (js "") = true ∧
  compareVersion Z exactNumber Z.gtb Z.ltb (js "not a version") (js "")
    = Returns 1 ∧
  forallb blankOrDot (js " . ") = true ∧
  compareVersion Z exactNumber Z.gtb Z.ltb (js " . ") (js "x") = Returns (-1).
Proof.
  assert (forallb blankOrDot (js "") = true) as H1 by reflexivity.
  assert (forallb blankOrDot (js " . ") = true) as H2 by (by vm_compute).
  split; [exact H1 |].
  split; [exact (proj1 (compareVersion_no_components Z exactNumber Z.gtb Z.ltb
                          (js "not a version") (js "")) H1) |].
  split; [exact H2 |].
  exact (proj2 (compareVersion_no_components Z exactNumber Z.gtb Z.ltb
                  (js " . ") (js "x")) H2).
Defined.

Lemma compareVersion_skips_blank_witness :
  Forall (λ x, isWhiteSpace x = true) (js " ") ∧
  (compareVersion Z exactNumber Z.gtb Z.ltb (js "1" ++ 46%N :: js " " ++ 46%N :: js "2")
     (js "1.3") = Returns (-1) ↔
   compareVersion Z exactNumber Z.gtb Z.ltb (js "1" ++ 46%N :: js "2") (js "1.3")
     = Returns (-1)) ∧
  compareVersion Z exactNumber Z.gtb Z.ltb (js "1. .2") (js "1.3") = Returns (-1).
Proof.
  assert (Forall (λ x, isWhiteSpace x = true) (js " ")) as H
    by (by repeat constructor).
  split; [exact H |].
  split; [|by vm_compute].
  exact (proj1 (compareVersion_skips_blank Z exactNumber Z.gtb Z.ltb
                  (js "1") (js " ") (js "2") (js "1.3") (-1) H)).
Defined.

(** * Further properties of the other helpers *)

(** ** wrapCommand *)

Lemma wrap_argument_again (cmd : string) :
  wrap_argument (wrap_argument cmd) = wrap_argument cmd.
Proof.
  unfold wrap_argument.
  destruct (includes_space cmd && negb (startsWith_quote cmd)) eqn:E.
  - cbn [startsWith_quote].
    rewrite Ascii.eqb_refl. cbn [negb]. by rewrite andb_false_r.
  - by rewrite E.
Qed.

(** X16. Wrapping is done once: in what [wrapCommand] joins, every argument
    that holds a space starts with a quote, and wrapping the arguments again
    gives the same command line; for one argument,
    [wrapCommand([wrapCommand([cmd])])] is [wrapCommand([cmd])]. *)
Theorem wrapCommand_once (cmd : string) (cmds : list string) :
  Forall (λ a, includes_space a = true → startsWith_quote a = true)
    (map wrap_argument cmds) ∧
  wrapCommand (map wrap_argument cmds) = wrapCommand cmds ∧
  wrapCommand [wrapCommand [cmd]] = wrapCommand [cmd].
Proof.
  split; [|split].
  - apply Forall_forall. intros a (c & -> & _)%list_elem_of_fmap.
    unfold wrap_argument.
    destruct (includes_space c && negb (startsWith_quote c)) eqn:E.
    + intros _. reflexivity.
    + intros Hs. rewrite Hs in E. by destruct (startsWith_quote c).
  - unfold wrapCommand. f_equal. rewrite map_map.
    apply map_ext. intros a. apply wrap_argument_again.
  - unfold wrapCommand. cbn. apply wrap_argument_again.
Qed.

(** ** genGithubHash *)

Lemma genGithubHash_buffer (digest_of : string → Buffer → Buffer) (b : Buffer)
    (d : Disk) :
  genGithubHash digest_of (inr b) d =
    Return (to_hex (digest_of "sha1" (git_blob b))).
Proof.
  unfold genGithubHash, digest_hex, update, createHash, git_blob, Buffer_from.
  cbn [algorithm written app]. rewrite Buffer_concat_exact.
  by rewrite !list_byte_of_string_app, <- !app_assoc.
Qed.

Lemma byte_of_hex_digits (b : Byte.byte) :
  byte_of_hex (hex_digit (Byte.to_N b / 16)) (hex_digit (Byte.to_N b mod 16))
    = Some b.
Proof. by destruct b. Qed.

Lemma to_hex_inj (l1 l2 : Buffer) : to_hex l1 = to_hex l2 → l1 = l2.
Proof.
  revert l2. induction l1 as [|b1 l1 IH]; intros [|b2 l2] H; try done.
  cbn [to_hex] in H. injection H as Hhi Hlo Hrest.
  pose proof (byte_of_hex_digits b1) as H1.
  rewrite Hhi, Hlo, byte_of_hex_digits in H1. injection H1 as ->.
  f_equal. by apply IH.
Qed.

Lemma read_decimal_no_zero_byte (s : string) (a m : N) :
  read_decimal a s = Some m →
  Forall (λ y, ¬ y = Byte.x00) (list_byte_of_string s).
Proof.
  unfold list_byte_of_string. revert a.
  induction s as [|c s IH]; intros a H; [constructor |].
  cbn [read_decimal] in H. cbn [list_ascii_of_string map].
  destruct ((48 <=? N_of_ascii c) && (N_of_ascii c <=? 57))%N eqn:E; [|done].
  constructor; [|by eapply IH].
  intros Hz. apply (f_equal ascii_of_byte) in Hz.
  rewrite ascii_of_byte_of_ascii in Hz. subst c. done.
Qed.

(** The bytes that are hashed determine the buffer. *)
Lemma git_blob_inj (b1 b2 : Buffer) : git_blob b1 = git_blob b2 → b1 = b2.
Proof.
  unfold git_blob. intros H%app_inv_head. cbn [app] in H.
  eapply (first_split_unique (λ y, y = Byte.x00)); [exact H | | done | | done];
    eapply read_decimal_no_zero_byte, Number_toString_decimal.
Qed.

(** X17. Equal hashes of two buffers mean equal buffers or a collision of
    the digest: when [genGithubHash] returns the same string for [b1] and
    [b2], either [b1 = b2], or the algorithm gives one digest to two
    different byte sequences. The header and the hexadecimal form lose
    nothing. *)
Theorem genGithubHash_equal (digest_of : string → Buffer → Buffer)
    (b1 b2 : Buffer) (d : Disk) :
  genGithubHash digest_of (inr b1) d = genGithubHash digest_of (inr b2) d →
  b1 = b2 ∨
  (git_blob b1 ≠ git_blob b2 ∧
   digest_of "sha1" (git_blob b1) = digest_of "sha1" (git_blob b2)).
Proof.
  rewrite !genGithubHash_buffer. intros [= H%to_hex_inj].
  destruct (List.list_eq_dec Byte.byte_eq_dec b1 b2) as [-> | Hne]; [by left |].
  right. split; [|done]. intros E. by apply Hne, git_blob_inj.
Qed.

Lemma genGithubHash_equal_witness :
  let b := list_byte_of_string "hello" in
  genGithubHash SHA1.digest_of (inr b) ∅ = genGithubHash SHA1.digest_of (inr b) ∅ ∧
  (b = b ∨
   (git_blob b ≠ git_blob b ∧
    SHA1.digest_of "sha1" (git_blob b) = SHA1.digest_of "sha1" (git_blob b))).
Proof.
  intros b.
  assert (genGithubHash SHA1.digest_of (inr b) ∅ =
          genGithubHash SHA1.digest_of (inr b) ∅) as H by reflexivity.
  split; [exact H |].
  exact (genGithubHash_equal SHA1.digest_of b b ∅ H).
Defined.

(** ** Host and path of a request *)

Lemma split_pieces_free (sep : N) (s : jsstring) :
  Forall (Forall (λ c, c ≠ sep)) (split sep s).
Proof.
  induction s as [|c s IH]; cbn [split]; [by repeat constructor |].
  destruct (N.eqb_spec c sep) as [-> | Hc]; [by constructor |].
  destruct (split_cons_shape sep s) as (p & ps & E). rewrite E in *.
  inversion IH; subst. constructor; [by constructor | done].
Qed.

(** Joining the pieces with the separator gives the string back. *)
Lemma join_split (sep : N) (s : jsstring) :
  join_units [sep] (split sep s) = s.
Proof.
  induction s as [|c s IH]; [done |]. cbn [split].
  destruct (split_cons_shape sep s) as (p & ps & E). rewrite E in *.
  destruct (N.eqb_spec c sep) as [-> | Hc].
  - rewrite <- IH. reflexivity.
  - rewrite <- IH. by destruct ps.
Qed.

(** X18. Host name and path make up the URL: with the first ["https://"]
    taken out of the URL, the host name is what stands before the first
    slash and holds none; the path starts with a slash, and host name and
    path together are the rest of the URL, or, when that holds no slash, the
    host name is all of it and the path is ["/"]. *)
Theorem request_target_parts (url : jsstring) :
  let s := replace_first (js "https://") [] url in
  let hostName := fst (request_target url) in
  let path := snd (request_target url) in
  Forall (λ c, c ≠ 47%N) hostName ∧
  (hostName ++ path = s ∨ (hostName = s ∧ path = [47%N])).
Proof.
  intros s hostName path. unfold hostName, path, request_target. fold s.
  pose proof (split_pieces_free 47 s) as Hfree.
  pose proof (join_split 47 s) as Hjoin.
  destruct (split_cons_shape 47 s) as (h & t & E). rewrite E in *.
  cbn [fst snd drop]. inversion Hfree; subst. split; [done |].
  destruct t as [|x t]; [right | left]; cbn [join_units app] in *; done.
Qed.

Lemma is_prefix_app (p b : jsstring) : is_prefix p (p ++ b) = true.
Proof. induction p as [|a p IH]; [done |]. cbn. by rewrite N.eqb_refl. Qed.

Lemma is_prefix_true (p s : jsstring) :
  is_prefix p s = true → ∃ b, s = p ++ b.
Proof.
  revert s. induction p as [|a p IH]; intros s H; [by exists s |].
  destruct s as [|c s]; [done |]. cbn in H.
  apply andb_true_iff in H as [->%N.eqb_eq (b & ->)%IH]. by exists b.
Qed.

Lemma replace_first_unfold (pat rep s : jsstring) :
  replace_first pat rep s =
    if is_prefix pat s then rep ++ drop (length pat) s
    else match s with
         | [] => []
         | c :: s' => c :: replace_first pat rep s'
         end.
Proof. by destruct s. Qed.

Lemma replace_first_prefix (pat rep b : jsstring) :
  replace_first pat rep (pat ++ b) = rep ++ b.
Proof.
  rewrite replace_first_unfold, is_prefix_app. by rewrite drop_app_length.
Qed.

Lemma split_no_sep_any (sep : N) (a : jsstring) :
  Forall (λ x, x ≠ sep) a → split sep a = [a].
Proof.
  induction 1 as [|x a Hx _ IH]; [done |].
  cbn. rewrite IH. by apply N.eqb_neq in Hx as ->.
Qed.

(** X19. For a URL made of ["https://"], a host name without a slash, and
    optionally a slash and more, the host name is that host and the path is
    the slash and what follows it, or ["/"] when nothing follows. *)
Theorem request_target_https (host rest : jsstring) :
  Forall (λ c, c ≠ 47%N) host →
  request_target (js "https://" ++ host ++ 47%N :: rest) = (host, 47%N :: rest) ∧
  request_target (js "https://" ++ host) = (host, [47%N]).
Proof.
  intros Hhost. unfold request_target.
  rewrite !replace_first_prefix. cbn [app].
  rewrite split_app, (split_no_sep_any 47 host) by done. split; [|done].
  change (drop 1 ([host] ++ split 47 rest)) with (split 47 rest).
  by rewrite join_split.
Qed.

(** ** redirectHost *)

Lemma replace_first_absent (pat rep s : jsstring) :
  ¬ occurs pat s → replace_first pat rep s = s.
Proof.
  induction s as [|c s IH]; intros H; rewrite replace_first_unfold.
  - destruct (is_prefix pat []) eqn:E; [|done].
    apply is_prefix_true in E as (b & E). destruct H. by exists [], b.
  - destruct (is_prefix pat (c :: s)) eqn:E.
    + apply is_prefix_true in E as (b & E). destruct H. by exists [], b.
    + f_equal. apply IH. intros (a & b & ->). apply H. by exists (c :: a), b.
Qed.

(** Where the pattern occurs, the replacement by nothing shortens. *)
Lemma replace_first_occurs (pat s : jsstring) :
  pat ≠ [] → occurs pat s →
  (length (replace_first pat [] s) < length s)%nat.
Proof.
  intros Hpat (a & b & ->). induction a as [|c a IH].
  - cbn [app]. rewrite replace_first_prefix. rewrite !length_app.
    destruct pat; [done |]. cbn. lia.
  - rewrite replace_first_unfold.
    destruct (is_prefix pat ((c :: a) ++ pat ++ b)) eqn:E.
    + cbn [app]. rewrite length_drop. destruct pat; [done |]. cbn. lia.
    + cbn [app length]. cbn [app] in IH. lia.
Qed.

(** X20. A URL in which neither [api.github.com] nor
    [raw.githubusercontent.com] occurs is returned as it is, whatever the
    random numbers are. *)
Theorem redirectHost_other (random : nat → nat) (url : jsstring) :
  ¬ occurs (js "api.github.com") url →
  ¬ occurs (js "raw.githubusercontent.com") url →
  redirectHost random url = url.
Proof.
  intros Hapi Hraw. unfold redirectHost, hostMap.
  cbn -[replace_first js Nat.modulo nth].
  rewrite (replace_first_absent (js "api.github.com")) by done.
  by rewrite replace_first_absent.
Qed.

(** X21. The two hosts are rewritten to their mirrors: a URL that starts
    with [https://api.github.com] gets the one mirror of that host in its
    place, and a URL that starts with [https://raw.githubusercontent.com]
    gets one of the two mirrors of that host, by the random number; what
    follows the host stays as it is when it names no host of the table. *)
Theorem redirectHost_github (random : nat → nat) (rest : jsstring) :
  (¬ occurs (js "raw.githubusercontent.com") rest →
   redirectHost random (js "https://api.github.com" ++ rest) =
     js "https://api-github.em-ide.com" ++ rest) ∧
  (¬ occurs (js "api.github.com") rest →
   ¬ occurs (js "raw.githubusercontent.com") rest →
   redirectHost random (js "https://raw.githubusercontent.com" ++ rest) =
     js "https://raw-github.em-ide.com" ++ rest ∨
   redirectHost random (js "https://raw.githubusercontent.com" ++ rest) =
     js "https://raw-github.github0null.io" ++ rest).
Proof.
  split.
  - intros Hraw. unfold redirectHost, hostMap.
    cbn -[replace_first js Nat.modulo].
    pose proof (Nat.mod_upper_bound (random 0%nat) 2 ltac:(lia)) as Hidx.
    assert (replace_first (js "api.github.com") (js "api-github.em-ide.com")
              (js "https://api.github.com" ++ rest) =
            js "https://api-github.em-ide.com" ++ rest) as -> by reflexivity.
    assert (∀ rep, replace_first (js "raw.githubusercontent.com") rep
                     (js "https://api-github.em-ide.com" ++ rest) =
                   js "https://api-github.em-ide.com" ++
                     replace_first (js "raw.githubusercontent.com") rep rest)
      as -> by (intros rep; reflexivity).
    by rewrite replace_first_absent.
  - intros Hapi Hraw. unfold redirectHost, hostMap.
    cbn -[replace_first js Nat.modulo].
    pose proof (Nat.mod_upper_bound (random 0%nat) 2 ltac:(lia)) as Hidx.
    assert (∀ rep, replace_first (js "api.github.com") rep
                     (js "https://raw.githubusercontent.com" ++ rest) =
                   js "https://raw.githubusercontent.com" ++
                     replace_first (js "api.github.com") rep rest)
      as -> by (intros rep; reflexivity).
    rewrite (replace_first_absent (js "api.github.com")) by done.
    assert (∀ rep, replace_first (js "raw.githubusercontent.com") rep
                     (js "https://raw.githubusercontent.com" ++ rest) =
                   js "https://" ++ rep ++ rest)
      as -> by (intros rep; reflexivity).
    destruct (random 0%nat mod 2)%nat as [|[|n]]; [by left | by right | lia].
Qed.

(** ** formatPath *)

Lemma lang_plus_class (p : N → bool) (s : jsstring) :
  lang (Plus (Class p)) s ↔ s ≠ [] ∧ Forall (λ x, p x = true) s.
Proof.
  split.
  - inversion 1 as [| | ? ? s1 s2 H1 H2 | | | |]; subst.
    inversion H1; subst. split; [done |].
    constructor; [done | by apply lang_star_class].
  - intros [Hne Hs]. destruct s as [|c s]; [done |].
    inversion Hs; subst. change (c :: s) with ([c] ++ s).
    apply lang_seq; [by constructor | by apply lang_class_star].
Qed.

Lemma replace_trailing_separators_unfold (s : jsstring) :
  replace_trailing_separators s =
    if test (Plus (Class isSeparator)) s then []
    else match s with
         | [] => []
         | c :: s' => c :: replace_trailing_separators s'
         end.
Proof. by destruct s. Qed.

(** What the replacement leaves and what it removes. *)
Lemma replace_trailing_separators_spec (s : jsstring) :
  ∃ seps,
    s = replace_trailing_separators s ++ seps ∧
    Forall (λ x, isSeparator x = true) seps ∧
    ∀ q c, replace_trailing_separators s = q ++ [c] → isSeparator c = false.
Proof.
  induction s as [|c s (seps & Hs & Hseps & Hlast)];
    rewrite replace_trailing_separators_unfold.
  - exists []. cbn. split; [done |]. split; [constructor |].
    intros q c H. by destruct q.
  - destruct (test (Plus (Class isSeparator)) (c :: s)) eqn:E.
    + apply test_iff_lang, lang_plus_class in E as [_ E].
      exists (c :: s). split; [done |]. split; [done |].
      intros q x H. by destruct q.
    + exists seps. split; [by rewrite <- app_comm_cons, <- Hs |].
      split; [done |]. intros q x H.
      destruct q as [|y q]; cbn in H.
      * injection H as -> Hnil. destruct (isSeparator x) eqn:Ex; [|done].
        rewrite Hnil in Hs. cbn in Hs. subst s.
        assert (test (Plus (Class isSeparator)) (x :: seps) = true) as Ht.
        { apply test_iff_lang, lang_plus_class. split; [done | by constructor]. }
        congruence.
      * injection H as -> H. by apply (Hlast q x).
Qed.

Section FormatPathProperties.

Variable ToLocalPath : jsstring → jsstring.

(** X22. [formatPath] hands [File.ToLocalPath] the trimmed path without
    its trailing slashes and backslashes: the trimmed path is what is handed
    over followed by separators only, and what is handed over does not end
    in a separator. *)
Theorem formatPath_strips (path : jsstring) :
  ∃ q seps,
    formatPath ToLocalPath path = ToLocalPath q ∧
    trim path = q ++ seps ∧
    Forall (λ x, isSeparator x = true) seps ∧
    ∀ q' c, q = q' ++ [c] → isSeparator c = false.
Proof.
  destruct (replace_trailing_separators_spec (trim path))
    as (seps & Hs & Hseps & Hlast).
  by exists (replace_trailing_separators (trim path)), seps.
Qed.

End FormatPathProperties.

(** ** Runs of the other helpers *)

Lemma request_target_https_witness :
  Forall (λ c, c ≠ 47%N) (js "api.github.com") ∧
  request_target (js "https://api.github.com/repos/x") =
    (js "api.github.com", js "/repos/x") ∧
  request_target (js "https://api.github.com") = (js "api.github.com", js "/").
Proof.
  assert (Forall (λ c, c ≠ 47%N) (js "api.github.com")) as H
    by (by repeat constructor).
  split; [exact H |].
  exact (request_target_https (js "api.github.com") (js "repos/x") H).
Defined.

Lemma redirectHost_other_witness :
  ¬ occurs (js "api.github.com") (js "https://github.com/a/b") ∧
  ¬ occurs (js "raw.githubusercontent.com") (js "https://github.com/a/b") ∧
  redirectHost (λ _, 1%nat) (js "https://github.com/a/b") =
    js "https://github.com/a/b".
Proof.
  assert (¬ occurs (js "api.github.com") (js "https://github.com/a/b")) as H1.
  { intros H%replace_first_occurs; [|done]. vm_compute in H. lia. }
  assert (¬ occurs (js "raw.githubusercontent.com") (js "https://github.com/a/b"))
    as H2.
  { intros H%replace_first_occurs; [|done]. vm_compute in H. lia. }
  split; [exact H1 |]. split; [exact H2 |].
  exact (redirectHost_other (λ _, 1%nat) _ H1 H2).
Defined.

Lemma redirectHost_github_witness :
  ¬ occurs (js "api.github.com") (js "/a/b") ∧
  ¬ occurs (js "raw.githubusercontent.com") (js "/a/b") ∧
  redirectHost (λ _, 1%nat) (js "https://api.github.com" ++ js "/a/b") =
    js "https://api-github.em-ide.com" ++ js "/a/b" ∧
  (redirectHost (λ _, 1%nat) (js "https://raw.githubusercontent.com" ++ js "/a/b") =
     js "https://raw-github.em-ide.com" ++ js "/a/b" ∨
   redirectHost (λ _, 1%nat) (js "https://raw.githubusercontent.com" ++ js "/a/b") =
     js "https://raw-github.github0null.io" ++ js "/a/b").
Proof.
  assert (¬ occurs (js "api.github.com") (js "/a/b")) as H1.
  { intros H%replace_first_occurs; [|done]. vm_compute in H. lia. }
  assert (¬ occurs (js "raw.githubusercontent.com") (js "/a/b")) as H2.
  { intros H%replace_first_occurs; [|done]. vm_compute in H. lia. }
  split; [exact H1 |]. split; [exact H2 |].
  split.
  - exact (proj1 (redirectHost_github (λ _, 1%nat) (js "/a/b")) H2).
  - exact (proj2 (redirectHost_github (λ _, 1%nat) (js "/a/b")) H1 H2).
Defined.

(** * compareVersion as an order *)

Section CompareVersionOrder.

Variable Number : Type.
Variable toNumber : bool → N → Number.
Variable gt lt : Number → Number → bool.

Lemma numeric_pieces_numbers (l : list jsstring) :
  Forall numeric_piece l →
  ∃ n, map (parseInt Number toNumber) l = map Some n.
Proof.
  induction 1 as [|s l Hs _ (n & IH)]; [by exists [] |].
  destruct (parseInt_numeric_piece Number toNumber s Hs) as [a Ha].
  exists (a :: n). cbn. by rewrite Ha, IH.
Qed.

Lemma parseInt_at_numbers (l : list jsstring) (n : list Number) (i : nat) :
  map (parseInt Number toNumber) l = map Some n →
  parseInt_at Number toNumber l i = n !! i.
Proof.
  revert n i. induction l as [|s l IH]; intros [|a n] i H; try done.
  cbn in H. injection H as Ha H. destruct i as [|i]; [done |].
  unfold parseInt_at in *. cbn. by apply IH.
Qed.

(** The loop and what follows it compare the numbers from [index] on. *)
Lemma compare_loop_lexicographic (v1 v2 : jsstring) (l1 l2 : list jsstring)
    (n1 n2 : list Number) (todo index : nat) :
  map (parseInt Number toNumber) l1 = map Some n1 →
  map (parseInt Number toNumber) l2 = map Some n2 →
  (index ≤ length l1)%nat → (index ≤ length l2)%nat →
  todo = Nat.min (length l1 - index) (length l2 - index) →
  compare_loop Number toNumber gt lt v1 v2 l1 l2 todo index
    (if (length l2 <? length l1)%nat then Returns 1
     else if (length l1 <? length l2)%nat then Returns (-1) else Returns 0)
  = Returns (lexicographic gt lt (drop index n1) (drop index n2)).
Proof.
  intros H1 H2.
  assert (length l1 = length n1) as E1
    by (apply (f_equal length) in H1; by rewrite !length_map in H1).
  assert (length l2 = length n2) as E2
    by (apply (f_equal length) in H2; by rewrite !length_map in H2).
  rewrite E1, E2. clear E1 E2. revert index.
  induction todo as [|todo IH]; intros index Hi1 Hi2 Htodo.
  - cbn [compare_loop].
    pose proof (length_drop n1 index) as Hd1.
    pose proof (length_drop n2 index) as Hd2.
    destruct (drop index n1) as [|a d1], (drop index n2) as [|b d2];
      cbn [length lexicographic] in *.
    + replace (length n2) with (length n1) by lia.
      by rewrite Nat.ltb_irrefl.
    + destruct (Nat.ltb_spec (length n2) (length n1)); [lia |].
      by destruct (Nat.ltb_spec (length n1) (length n2)); [|lia].
    + by destruct (Nat.ltb_spec (length n2) (length n1)); [|lia].
    + lia.
  - cbn [compare_loop].
    rewrite (parseInt_at_numbers l1 n1), (parseInt_at_numbers l2 n2) by done.
    destruct (lookup_lt_is_Some_2 n1 index) as [a Ha]; [lia |].
    destruct (lookup_lt_is_Some_2 n2 index) as [b Hb]; [lia |].
    rewrite Ha, Hb, (drop_S n1 a index Ha), (drop_S n2 b index Hb).
    cbn [lexicographic].
    destruct (gt a b); [done |]. destruct (lt a b); [done |].
    apply IH; lia.
Qed.

(** X23. [compareVersion] is the comparison, from the left, of the numbers
    that [parseInt] reads in the components: on accepted strings every
    component gives a number, the first component that is greater or less
    decides, and when all common components are equal the string with more
    components is the greater. *)
Theorem compareVersion_lexicographic (v1 v2 : jsstring) :
  isVersionString v1 = true → isVersionString v2 = true →
  ∃ n1 n2,
    map (parseInt Number toNumber) (components v1) = map Some n1 ∧
    map (parseInt Number toNumber) (components v2) = map Some n2 ∧
    compareVersion Number toNumber gt lt v1 v2
      = Returns (lexicographic gt lt n1 n2).
Proof.
  intros H1%components_numeric H2%components_numeric.
  destruct (numeric_pieces_numbers _ H1) as (n1 & E1).
  destruct (numeric_pieces_numbers _ H2) as (n2 & E2).
  exists n1, n2. split; [done |]. split; [done |].
  rewrite compareVersion_components.
  rewrite (compare_loop_lexicographic v1 v2 _ _ n1 n2);
    [done | done | done | lia | lia | lia].
Qed.

Section Order.

Hypothesis lt_is_gt : ∀ a b, lt a b = gt b a.
Hypothesis gt_transitive : ∀ a b c, gt a b = true → gt b c = true → gt a c = true.
Hypothesis gt_between : ∀ a b c, gt a c = true → gt a b = true ∨ gt b c = true.

Lemma lexicographic_transitive (a b c : list Number) :
  lexicographic gt lt a b = 1 → lexicographic gt lt b c = 1 →
  lexicographic gt lt a c = 1.
Proof.
  revert b c. induction a as [|x a IH]; intros [|y b] [|z c]; cbn; try done.
  rewrite !lt_is_gt.
  destruct (gt x y) eqn:Exy.
  - intros _. destruct (gt y z) eqn:Eyz.
    + intros _. by rewrite (gt_transitive x y z).
    + destruct (gt z y) eqn:Ezy; [done |]. intros _.
      destruct (gt_between x z y Exy) as [-> | ?]; [done | congruence].
  - destruct (gt y x) eqn:Eyx; [done |]. intros Hab.
    destruct (gt y z) eqn:Eyz.
    + intros _. destruct (gt_between y x z Eyz) as [? | ->]; [congruence | done].
    + destruct (gt z y) eqn:Ezy; [done |]. intros Hbc.
      destruct (gt x z) eqn:Exz.
      * destruct (gt_between x y z Exz); congruence.
      * destruct (gt z x) eqn:Ezx.
        -- destruct (gt_between z y x Ezx); congruence.
        -- by apply (IH b c).
Qed.

(** X24. Greater is transitive: for accepted strings, when
    [compareVersion(v1, v2)] is 1 and [compareVersion(v2, v3)] is 1, then
    [compareVersion(v1, v3)] is 1, for numbers whose order is a strict weak
    order with less as greater read backwards. *)
Theorem compareVersion_transitive (v1 v2 v3 : jsstring) :
  isVersionString v1 = true → isVersionString v2 = true →
  isVersionString v3 = true →
  compareVersion Number toNumber gt lt v1 v2 = Returns 1 →
  compareVersion Number toNumber gt lt v2 v3 = Returns 1 →
  compareVersion Number toNumber gt lt v1 v3 = Returns 1.
Proof.
  intros H1%components_numeric H2%components_numeric H3%components_numeric.
  destruct (numeric_pieces_numbers _ H1) as (n1 & E1).
  destruct (numeric_pieces_numbers _ H2) as (n2 & E2).
  destruct (numeric_pieces_numbers _ H3) as (n3 & E3).
  rewrite !compareVersion_components.
  rewrite (compare_loop_lexicographic v1 v2 _ _ n1 n2),
    (compare_loop_lexicographic v2 v3 _ _ n2 n3),
    (compare_loop_lexicographic v1 v3 _ _ n1 n3); try done; try lia.
  rewrite !drop_0. intros [= Hab] [= Hbc]. f_equal.
  by apply (lexicographic_transitive n1 n2 n3).
Qed.

End Order.

End CompareVersionOrder.

Lemma compareVersion_lexicographic_witness :
  isVersionString (js "1.10.2") = true ∧ isVersionString (js "1.9") = true ∧
  ∃ n1 n2,
    map (parseInt Z exactNumber) (components (js "1.10.2")) = map Some n1 ∧
    map (parseInt Z exactNumber) (components (js "1.9")) = map Some n2 ∧
    compareVersion Z exactNumber Z.gtb Z.ltb (js "1.10.2") (js "1.9")
      = Returns (lexicographic Z.gtb Z.ltb n1 n2).
Proof.
  assert (isVersionString (js "1.10.2") = true) as H1 by (by vm_compute).
  assert (isVersionString (js "1.9") = true) as H2 by (by vm_compute).
  split; [exact H1 |]. split; [exact H2 |].
  exact (compareVersion_lexicographic Z exactNumber Z.gtb Z.ltb _ _ H1 H2).
Defined.

Lemma Zltb_is_gtb (a b : Z) : (a <? b) = (b >? a).
Proof. by rewrite Z.gtb_ltb. Qed.

Lemma Zgtb_transitive (a b c : Z) :
  (a >? b) = true → (b >? c) = true → (a >? c) = true.
Proof. rewrite !Z.gtb_ltb, !Z.ltb_lt. lia. Qed.

Lemma Zgtb_between (a b c : Z) :
  (a >? c) = true → (a >? b) = true ∨ (b >? c) = true.
Proof. rewrite !Z.gtb_ltb, !Z.ltb_lt. lia. Qed.

Lemma compareVersion_transitive_witness :
  (∀ a b, (a <? b) = (b >? a)) ∧
  (∀ a b c, (a >? b) = true → (b >? c) = true → (a >? c) = true) ∧
  (∀ a b c, (a >? c) = true → (a >? b) = true ∨ (b >? c) = true) ∧
  isVersionString (js "2.0") = true ∧ isVersionString (js "1.10.2") = true ∧
  isVersionString (js "1.9") = true ∧
  compareVersion Z exactNumber Z.gtb Z.ltb (js "2.0") (js "1.10.2") = Returns 1 ∧
  compareVersion Z exactNumber Z.gtb Z.ltb (js "1.10.2") (js "1.9") = Returns 1 ∧
  compareVersion Z exactNumber Z.gtb Z.ltb (js "2.0") (js "1.9") = Returns 1.
Proof.
  assert (isVersionString (js "2.0") = true) as H1 by (by vm_compute).
  assert (isVersionString (js "1.10.2") = true) as H2 by (by vm_compute).
  assert (isVersionString (js "1.9") = true) as H3 by (by vm_compute).
  assert (compareVersion Z exactNumber Z.gtb Z.ltb (js "2.0") (js "1.10.2")
          = Returns 1) as H12 by (by vm_compute).
  assert (compareVersion Z exactNumber Z.gtb Z.ltb (js "1.10.2") (js "1.9")
          = Returns 1) as H23 by (by vm_compute).
  split; [exact Zltb_is_gtb |]. split; [exact Zgtb_transitive |].
  split; [exact Zgtb_between |].
  split; [exact H1 |]. split; [exact H2 |]. split; [exact H3 |].
  split; [exact H12 |]. split; [exact H23 |].
  exact (compareVersion_transitive Z exactNumber Z.gtb Z.ltb
           Zltb_is_gtb Zgtb_transitive Zgtb_between _ _ _ H1 H2 H3 H12 H23).
Defined.
